(** * GoatDB: schema registry, authorization matcher and sync messages

    A shallow embedding of [cfds/base/schema-manager.ts] (the class
    [SchemaManager] and the table [kBuiltinAuthRules]) and of the
    [SyncMessage] class of the sync protocol, with the properties of the
    natural-language specification stated and settled over it.

    Conventions of the embedding:
    - a JavaScript [string] is a [string]; an integral [number] is a [Z];
      a [number] that takes part in floating point formulas is a value of
      an abstract type with its operations ([Numbers]), which fixes no
      rounding; [undefined] and [null] are [None];
    - a call that may throw returns an [outcome];
    - an object that the code mutates in place (the manager, a bloom
      filter, an array under construction) is threaded explicitly;
    - an [Iterable] that is consumed once is the [list] of what it yields. *)

From Stdlib Require Import ZArith String Ascii List Lia Bool Reals Lra.
From Stdlib Require Import DecimalString DecimalNat Permutation Sorted.
From stdpp Require Import base gmap strings list.

Import ListNotations.
Local Open Scope Z_scope.

(** ** The JavaScript primitives used by the sources *)

Module JS.

(** A call either returns a value or throws. [assert] (of [base/error.ts])
    throws when its condition is false; the message is the one passed to
    it, empty when there is none. *)
Inductive outcome (A : Type) : Type :=
| Return (a : A)
| Throw (msg : string).
Arguments Return {A} a.
Arguments Throw {A} msg.

Definition bind {A B} (o : outcome A) (k : A -> outcome B) : outcome B :=
  match o with
  | Return a => k a
  | Throw msg => Throw msg
  end.

Definition assert (cond : bool) (msg : string) : outcome unit :=
  if cond then Return tt else Throw msg.

(** [Number.MAX_SAFE_INTEGER]: the integers of absolute value up to it are
    exactly representable, and print as plain decimal numerals. *)
Definition MAX_SAFE_INTEGER : Z := 2 ^ 53 - 1.

Definition safe_integer (v : Z) : Prop :=
  - MAX_SAFE_INTEGER <= v <= MAX_SAFE_INTEGER.

(** *** [String.prototype.split] with a one-character separator *)

Fixpoint split (sep : ascii) (s : string) : list string :=
  match s with
  | EmptyString => [EmptyString]
  | String c r =>
      if Ascii.eqb c sep then EmptyString :: split sep r
      else match split sep r with
           | h :: t => String c h :: t
           | [] => [String c EmptyString]
           end
  end.

(** [s.includes(c)] for a character. *)
Fixpoint has_char (c : ascii) (s : string) : bool :=
  match s with
  | EmptyString => false
  | String d r => Ascii.eqb d c || has_char c r
  end.

(** [s.includes(t)] for a string: some suffix of [s] starts with [t]. *)
Fixpoint includes (t s : string) : bool :=
  String.prefix t s ||
  match s with
  | EmptyString => false
  | String _ r => includes t r
  end.

(** *** Printing an integral number ([Number::toString], radix 10) *)

Definition nat_to_string (n : nat) : string :=
  NilEmpty.string_of_uint (Nat.to_uint n).

(** The numeral of an integer below 10^21 in absolute value; a template
    literal [`${v}`] prints a number this way. *)
Definition number_to_string (v : Z) : string :=
  if v <? 0 then String "-" (nat_to_string (Z.to_nat (- v)))
  else nat_to_string (Z.to_nat v).

(** *** [parseInt(s)] with the radix omitted

    ECMAScript: skip leading white space, read an optional sign, switch to
    radix 16 on a [0x] / [0X] prefix, read the longest prefix of digits of
    the radix; the result is NaN ([None]) when that prefix is empty.
    Characters are 8-bit here, so the white space is the ASCII one. *)

Definition is_white_space (c : ascii) : bool :=
  let n := nat_of_ascii c in
  ((9 <=? n) && (n <=? 13) || (n =? 32))%nat.

Fixpoint trim_start (s : string) : string :=
  match s with
  | String c r => if is_white_space c then trim_start r else s
  | EmptyString => EmptyString
  end.

Definition digit_value (radix : nat) (c : ascii) : option nat :=
  let n := nat_of_ascii c in
  let d :=
    if ((48 <=? n) && (n <=? 57))%nat then Some (n - 48)%nat
    else if ((97 <=? n) && (n <=? 102))%nat then Some (n - 87)%nat
    else if ((65 <=? n) && (n <=? 70))%nat then Some (n - 55)%nat
    else None in
  match d with
  | Some k => if (k <? radix)%nat then Some k else None
  | None => None
  end.

(** The value of the longest prefix of digits, [None] when it is empty;
    [acc] holds the value read so far once a digit has been seen. *)
Fixpoint parse_digits (radix : nat) (acc : option nat) (s : string)
  : option nat :=
  match s with
  | EmptyString => acc
  | String c r =>
      match digit_value radix c with
      | Some d =>
          parse_digits radix (Some (radix * default 0%nat acc + d)%nat) r
      | None => acc
      end
  end.

Definition strip_sign (s : string) : bool * string :=
  match s with
  | String "-" r => (true, r)
  | String "+" r => (false, r)
  | _ => (false, s)
  end.

Definition strip_radix (s : string) : nat * string :=
  match s with
  | String "0" (String "x" r) => (16%nat, r)
  | String "0" (String "X" r) => (16%nat, r)
  | _ => (10%nat, s)
  end.

Definition parseInt (s : string) : option Z :=
  let '(neg, s1) := strip_sign (trim_start s) in
  let '(radix, s2) := strip_radix s1 in
  match parse_digits radix None s2 with
  | Some n => Some (if neg then - Z.of_nat n else Z.of_nat n)
  | None => None
  end.

(** [parseInt(undefined)] reads the string ["undefined"]. *)
Definition parseInt_opt (s : option string) : option Z :=
  match s with
  | Some s => parseInt s
  | None => parseInt "undefined"
  end.

(** Truthiness of a number that may be [undefined] or NaN (both [None]):
    only a non-zero number is truthy. *)
Definition truthy_number (v : option Z) : bool :=
  match v with
  | Some n => negb (n =? 0)
  | None => false
  end.

End JS.

(** ** The schema manager ([cfds/base/schema-manager.ts]) *)

(** What [schema-manager.ts] imports from files that are not part of the
    sources at hand; the development is parametric in them. *)
Class Env : Type := {
  (** [CoreObject] of [base/core-types/base.ts]: the payload of an item. *)
  CoreObject : Type;
  (** [GoatDB] of [mod.ts]; an authorization rule receives it. *)
  GoatDB : Type;
  (** [coreValueClone] of [base/core-types/clone.ts]. *)
  coreValueClone : CoreObject -> CoreObject;
  (** [itemPathGetRepoId] of [mod.ts]. *)
  itemPathGetRepoId : string -> string;
  (** [Repository.normalizePath] of [mod.ts]. *)
  normalizePath : string -> string;
}.

Module SchemaMgr.
Import JS.

Section Model.
Context `{Env}.

(** The data fields of a schema. An upgrade function receives the schema
    it upgrades from; it is handed these fields of it. *)
Record SchemaInfo : Type := {
  info_ns : option string;
  info_version : Z;
}.

(** [Schema] of [schema.ts], with the fields that the manager reads:
    [ns] ([null] is [None]), [version] and the optional [upgrade]. *)
Record Schema : Type := {
  ns : option string;
  version : Z;
  schema_upgrade : option (CoreObject -> SchemaInfo -> CoreObject);
}.

Definition infoOf (s : Schema) : SchemaInfo :=
  {| info_ns := ns s; info_version := version s |}.

(** Modelled from the spec: [kNullSchema] of [schema.ts], the universal
    empty schema, identified by its [null] namespace. *)
Definition kNullSchema : Schema :=
  {| ns := None; version := 0; schema_upgrade := None |}.

(** Modelled from the spec: the three builtin schemas of [schema.ts]; the
    spec names their namespaces [Session], [User] and [UserStats]. *)
Definition kSchemaSession : Schema :=
  {| ns := Some "Session"%string; version := 1; schema_upgrade := None |}.
Definition kSchemaUser : Schema :=
  {| ns := Some "User"%string; version := 1; schema_upgrade := None |}.
Definition kSchemaUserStats : Schema :=
  {| ns := Some "UserStats"%string; version := 1; schema_upgrade := None |}.

(** [Session] of [db/session.ts]: the rules read its [owner] only. *)
Record Session : Type := { owner : string }.

Inductive AuthOp : Type := read | write.

Definition AuthRule : Type :=
  GoatDB -> string -> string -> Session -> AuthOp -> bool.

(** A [RegExp] object: [re_id] is its identity as an object ([===] on two
    objects compares identities), [re_test] is what [test] answers once
    [lastIndex] has been reset to 0. *)
Record RegExp : Type := {
  re_id : nat;
  re_test : string -> bool;
}.

(** [rulePath: RegExp | string]. *)
Inductive RulePath : Type :=
| PathString (s : string)
| PathRegExp (r : RegExp).

Record AuthEntry : Type := {
  rulePath : RulePath;
  rule : AuthRule;
}.

Definition AuthConfig : Type := list AuthEntry.

(** [p === q] on rule paths: strings by value, objects by identity, and a
    string is never a [RegExp]. *)
Definition strict_equal (p q : RulePath) : bool :=
  match p, q with
  | PathString a, PathString b => String.eqb a b
  | PathRegExp r1, PathRegExp r2 => Nat.eqb (re_id r1) (re_id r2)
  | _, _ => false
  end.

(** The state of a manager: [_schemas] maps a namespace to its array of
    schemas, [_authRules] is the array of user rules. *)
Record SchemaManager : Type := {
  _schemas : gmap string (list Schema);
  _authRules : AuthConfig;
}.

(** [arr.sort((s1, s2) => s2.version - s1.version)]: a stable sort with
    this comparator; [s1] goes before [s2] when the comparator is
    negative. *)
Definition compareVersions (s1 s2 : Schema) : Z := version s2 - version s1.

Fixpoint sort_insert (x : Schema) (l : list Schema) : list Schema :=
  match l with
  | [] => [x]
  | y :: l' =>
      if compareVersions x y <? 0 then x :: y :: l'
      else y :: sort_insert x l'
  end.

Definition sort (l : list Schema) : list Schema :=
  fold_left (fun acc x => sort_insert x acc) l [].

(** [arr.find((s) => s.version === v)], [v] possibly [undefined] or NaN. *)
Definition findVersion (v : option Z) (arr : list Schema) : option Schema :=
  List.find (fun s => match v with
                      | Some n => version s =? n
                      | None => false
                      end) arr.

(** [s.ns === null]. *)
Definition is_null_ns (s : Schema) : bool :=
  match ns s with None => true | Some _ => false end.

Definition registerSchema (schema : Schema) (m : SchemaManager)
  : outcome SchemaManager :=
  bind (assert (negb (is_null_ns schema)) EmptyString) (fun _ =>
  match ns schema with
  | None => Return m
  | Some n =>
      let arr := default [] (_schemas m !! n) in
      let arr' :=
        match findVersion (Some (version schema)) arr with
        | None => sort (arr ++ [schema])
        | Some _ => arr
        end in
      Return {| _schemas := <[n := arr']> (_schemas m);
                _authRules := _authRules m |}
  end).

(** The constructor: empty tables, then the builtin schemas. *)
Definition newSchemaManager : outcome SchemaManager :=
  bind (registerSchema kSchemaSession
          {| _schemas := ∅; _authRules := [] |}) (fun m1 =>
  bind (registerSchema kSchemaUser m1) (fun m2 =>
  registerSchema kSchemaUserStats m2)).

(** The loop of [registerAuthRule] over the rules already registered. *)
Fixpoint assertRulePaths (rules : AuthConfig) (path : RulePath)
  : outcome unit :=
  match rules with
  | [] => Return tt
  | e :: rest =>
      bind (assert (strict_equal (rulePath e) path)
              "Attempting to register multiple rules for the same path")
           (fun _ => assertRulePaths rest path)
  end.

Definition registerAuthRule (path : RulePath) (r : AuthRule)
    (m : SchemaManager) : outcome SchemaManager :=
  let path :=
    match path with
    | PathString s => PathString (itemPathGetRepoId s)
    | PathRegExp _ => path
    end in
  bind (assertRulePaths (_authRules m) path) (fun _ =>
  Return {| _schemas := _schemas m;
            _authRules :=
              _authRules m ++ [{| rulePath := path; rule := r |}] |}).

(** [get(ns, version?)]: [version ? arr.find(...) : arr[0]]. *)
Definition get (m : SchemaManager) (n : string) (v : option Z)
  : option Schema :=
  match _schemas m !! n with
  | None => None
  | Some arr => if truthy_number v then findVersion v arr else head arr
  end.

(** [this.get(ns, ...)] where [ns] may be [null]: no key of the map is. *)
Definition get_nullable (m : SchemaManager) (n : option string)
    (v : option Z) : option Schema :=
  match n with
  | Some n => get m n v
  | None => None
  end.

(** [a || b] on nullable strings: the empty string is falsy too. *)
Definition or_string (a b : option string) : option string :=
  match a with
  | Some s => if String.eqb s EmptyString then b else a
  | None => b
  end.

(** The [for] loop of [upgrade]: [count] iterations are left, [i] is the
    version looked up next. *)
Fixpoint upgradeLoop (m : SchemaManager) (n : option string) (count : nat)
    (i : Z) (currentSchema : Schema) (upgradedData : CoreObject)
  : option (CoreObject * Schema) :=
  match count with
  | O => Some (upgradedData, currentSchema)
  | S count' =>
      match get_nullable m n (Some i) with
      | None => None
      | Some schema =>
          let upgradedData' :=
            match schema_upgrade schema with
            | Some f => f upgradedData (infoOf currentSchema)
            | None => upgradedData
            end in
          upgradeLoop m n count' (i + 1) schema upgradedData'
      end
  end.

Definition upgrade (m : SchemaManager) (data : CoreObject)
    (dataSchema : Schema) (targetSchema : option Schema)
  : outcome (option (CoreObject * Schema)) :=
  let target_null :=
    match targetSchema with
    | None => true
    | Some t => is_null_ns t
    end in
  if target_null && is_null_ns dataSchema then
    Return (Some (data, kNullSchema))
  else
    bind (assert (negb (is_null_ns dataSchema) || negb target_null)
            EmptyString) (fun _ =>
    let n := or_string (from_option ns None targetSchema) (ns dataSchema) in
    match get_nullable m n (option_map version targetSchema) with
    | None => Return (Some (data, dataSchema))
    | Some latest =>
        if version latest =? version dataSchema then
          Return (Some (data, dataSchema))
        else
          Return (upgradeLoop m n
                    (Z.to_nat (version latest - version dataSchema))
                    (version dataSchema + 1) dataSchema
                    (coreValueClone data))
    end).

Definition encode (schema : Schema) : string :=
  match ns schema with
  | None => "null"
  | Some n => n ++ "/" ++ number_to_string (version schema)
  end%string.

(** [const [ns, ver] = str.split('/')]: the first two pieces, the second
    [undefined] when there is no separator. *)
Definition decode (m : SchemaManager) (str : string) : option Schema :=
  if String.eqb str "null" then Some kNullSchema
  else
    let parts := split "/" str in
    let n := List.hd EmptyString parts in
    let ver := head (List.tl parts) in
    get m n (parseInt_opt ver).

(** The catch-all pattern [/[/]sys[/]\S*/g]: [\S*] also matches nothing,
    so [test] answers whether ["/sys/"] occurs in the input. *)
Definition kSysRegExp : RegExp :=
  {| re_id := 0; re_test := includes "/sys/" |}.

Definition kBuiltinAuthRules : AuthConfig :=
  [ {| rulePath := PathString "/sys/users";
       rule := fun _db _repoPath itemKey session op =>
         if String.eqb (owner session) "root" then true
         else if String.eqb (owner session) itemKey then true
         else match op with read => true | write => false end |};
    {| rulePath := PathString "/sys/sessions";
       rule := fun _db _repoPath _itemKey session op =>
         if String.eqb (owner session) "root" then true
         else match op with read => true | write => false end |};
    {| rulePath := PathString "/sys/stats";
       rule := fun _db _repoPath _itemKey session _op =>
         String.eqb (owner session) "root" |};
    {| rulePath := PathRegExp kSysRegExp;
       rule := fun _db _repoPath _itemKey session _op =>
         String.eqb (owner session) "root" |} ].

(** A [for] loop that returns the rule of the first entry that matches. *)
Fixpoint firstRule (matches : AuthEntry -> bool) (rules : AuthConfig)
  : option AuthRule :=
  match rules with
  | [] => None
  | e :: rest => if matches e then Some (rule e) else firstRule matches rest
  end.

Definition authRuleForRepo (m : SchemaManager) (inputPath : string)
  : option AuthRule :=
  let repoId := itemPathGetRepoId inputPath in
  match firstRule (fun e => strict_equal (rulePath e) (PathString repoId))
          kBuiltinAuthRules with
  | Some r => Some r
  | None =>
      firstRule (fun e =>
        match rulePath e with
        | PathString s => String.eqb (normalizePath s) repoId
        | PathRegExp re => re_test re inputPath
        end) (_authRules m)
  end.

(** The managers a program can hold: the constructor's, and what
    registrations that return make of it. *)
Inductive reachable : SchemaManager -> Prop :=
| reachable_new m :
    newSchemaManager = Return m -> reachable m
| reachable_registerSchema m s m' :
    reachable m -> registerSchema s m = Return m' -> reachable m'
| reachable_registerAuthRule m p r m' :
    reachable m -> registerAuthRule p r m = Return m' -> reachable m'.

(** The schemas registered for a namespace, latest first. *)
Definition schemasOf (m : SchemaManager) (n : string) : list Schema :=
  default [] (_schemas m !! n).

(** [s] is one of the schemas that were registered with [m]. *)
Definition registered (m : SchemaManager) (s : Schema) : Prop :=
  exists n, ns s = Some n /\ In s (schemasOf m n).

(** Some schema of namespace [n] with version [v] is registered. *)
Definition hasVersion (m : SchemaManager) (n : string) (v : Z) : Prop :=
  exists s, In s (schemasOf m n) /\ version s = v.

(** The shape that registration keeps for the array of a namespace [n]:
    not empty, one schema per version, latest version first, and every
    schema of that namespace. *)
Definition descending (arr : list Schema) : Prop :=
  StronglySorted (fun a b => version b <= version a) arr.

Definition wfArr (n : string) (arr : list Schema) : Prop :=
  arr <> [] /\ List.NoDup (List.map version arr) /\ descending arr /\
  List.Forall (fun s => ns s = Some n) arr.

Definition wf (m : SchemaManager) : Prop :=
  forall n arr, _schemas m !! n = Some arr -> wfArr n arr.

(** *** Names for parts of the matcher *)

(** The rule path that [registerAuthRule] stores for its argument. *)
Definition storedPath (p : RulePath) : RulePath :=
  match p with
  | PathString s => PathString (itemPathGetRepoId s)
  | PathRegExp _ => p
  end.

(** The three repository ids that have a builtin rule of their own. *)
Definition builtinRepoIds : list string :=
  ["/sys/users"; "/sys/sessions"; "/sys/stats"]%string.

(** The matcher used on the user rules. *)
Definition userMatches (repoId inputPath : string) (e : AuthEntry) : bool :=
  match rulePath e with
  | PathString s => String.eqb (normalizePath s) repoId
  | PathRegExp re => re_test re inputPath
  end.

(** *** The upgrade chain as the specification words it *)

(** One step of the chain: the step's [upgrade], where present, applied
    to the data and the schema reached so far. *)
Definition applyStep (acc : CoreObject * Schema) (s : Schema)
  : CoreObject * Schema :=
  (match schema_upgrade s with
   | Some f => f (fst acc) (infoOf (snd acc))
   | None => fst acc
   end, s).

(** The per-step upgrades performed one at a time, in the order of the
    chain [first :: rest]. *)
Definition applyChain (d : CoreObject) (first : Schema)
    (rest : list Schema) : CoreObject * Schema :=
  fold_left applyStep rest (d, first).

(** Each schema of [rest] has the version that follows its predecessor's,
    starting after [cur]. *)
Fixpoint consecutive (cur : Schema) (rest : list Schema) : Prop :=
  match rest with
  | [] => True
  | s :: rest' => version s = version cur + 1 /\ consecutive s rest'
  end.

(** The version that an upgrade aims at: the version of the target when
    that version is registered, the latest version of the namespace when
    the target is omitted. *)
Definition aimsAt (m : SchemaManager) (n : string)
    (targetSchema : option Schema) (vt : Z) : Prop :=
  match targetSchema with
  | Some t => ns t = Some n /\ hasVersion m n (version t) /\ vt = version t
  | None => exists l, head (schemasOf m n) = Some l /\ vt = version l
  end.

End Model.
End SchemaMgr.

(** ** The sync message ([SyncMessage] and its builders) *)

(** The numbers of JavaScript (IEEE doubles) with the operations that
    [build] applies to them. Their rounding, their infinities and NaN are
    those of the platform: the development assumes nothing about them. *)
Class Numbers : Type := {
  number : Type;
  (** The number that an integer denotes. *)
  num_of_Z : Z -> number;
  (** The literals [0.5] and [1]. *)
  num_half : number;
  num_one : number;
  (** [x * y], [x / y], [Math.pow(x, y)] and [Math.min(x, y)]. *)
  num_mul : number -> number -> number;
  num_div : number -> number -> number;
  Math_pow : number -> number -> number;
  Math_min : number -> number -> number;
}.

(** What the sync message imports from files that are not part of the
    sources at hand: the bloom filter, commits and their decoding, the
    build version of the running program. *)
Class SyncEnv `{Numbers} : Type := {
  (** [BloomFilter] of [base/bloom.ts]: [new BloomFilter({size, fpr})],
      [add], [has] and [deserialize]; [add] and [deserialize] update the
      filter in place, here they return the updated filter. *)
  BloomFilter : Type;
  FilterDecoder : Type;
  bf_new : Z -> number -> BloomFilter;
  bf_add : BloomFilter -> string -> BloomFilter;
  bf_has : BloomFilter -> string -> bool;
  bf_deserialize : BloomFilter -> FilterDecoder -> BloomFilter;
  (** [Commit] of [repo/commit.ts]; [Commit.fromJS(orgId, decoder,
      registry)] may throw. *)
  Commit : Type;
  CommitDecoder : Type;
  DataRegistry : Type;
  Commit_fromJS : string -> CommitDecoder -> DataRegistry -> JS.outcome Commit;
  (** [VersionNumber], [getGoatConfig().version], and whether a version
      is truthy as a JavaScript value (the number 0 is not). *)
  VersionNumber : Type;
  currentVersion : VersionNumber;
  version_truthy : VersionNumber -> bool;
}.

Module Sync.
Import JS.

Section Model.
Context `{SyncEnv}.

(** What the decoder of an encoded message answers: [get('ver')],
    [getDecoder('f')], [get('s')], and for the optional keys ["c"] and
    ["ad"] their value when [has] holds; the entry [i] of [enc_c] is what
    [getDecoder('c', i)] decodes. *)
Record Encoded : Type := {
  enc_ver : option VersionNumber;
  enc_f : FilterDecoder;
  enc_s : Z;
  enc_c : option (list CommitDecoder);
  enc_ad : option (list string);
}.

Record SyncMessage : Type := {
  orgId : string;
  registry : DataRegistry;
  _buildVersion : option VersionNumber;
  _filter : BloomFilter;
  _size : Z;
  _values : list Commit;
  _accessDenied : option (list string);
}.

(** The getters. *)
Definition filter (msg : SyncMessage) : BloomFilter := _filter msg.
Definition size (msg : SyncMessage) : Z := _size msg.
Definition values (msg : SyncMessage) : list Commit := _values msg.
Definition accessDenied (msg : SyncMessage) : list string :=
  default [] (_accessDenied msg).

Record SyncMessageConfig : Type := {
  cfg_filter : BloomFilter;
  cfg_size : Z;
  cfg_orgId : string;
  cfg_values : option (list Commit);
  cfg_accessDenied : option (list string);
  cfg_buildVersion : option VersionNumber;
}.

Record SyncMessageDecoderConfig : Type := {
  dec_orgId : string;
  decoder : Encoded;
}.

(** The loop of [deserialize] over [commits]: a commit whose decoding
    throws is dropped by the empty [catch]. *)
Fixpoint deserializeCommits (org : string) (reg : DataRegistry)
    (commits : list CommitDecoder) (indices : list nat)
    (acc : list Commit) : list Commit :=
  match indices with
  | [] => acc
  | i :: rest =>
      let acc' :=
        match commits !! i with
        | Some d =>
            match Commit_fromJS org d reg with
            | Return c => acc ++ [c]
            | Throw _ => acc
            end
        | None => acc
        end in
      deserializeCommits org reg commits rest acc'
  end.

(** [deserialize(decoder)] on a message whose [orgId] and [registry] are
    set and whose filter is [current] ([None] inside the constructor). *)
Definition deserialize (org : string) (reg : DataRegistry)
    (current : option BloomFilter) (e : Encoded) : SyncMessage :=
  let f := default (bf_new 1 num_half) current in
  let f := bf_deserialize f (enc_f e) in
  let commits := default [] (enc_c e) in
  {| orgId := org;
     registry := reg;
     _buildVersion := enc_ver e;
     _filter := f;
     _size := enc_s e;
     _values :=
       deserializeCommits org reg commits (seq 0 (length commits)) [];
     _accessDenied := Some (default [] (enc_ad e)) |}.

(** [buildVersion || getGoatConfig().version]: the given version when
    there is one and it is truthy, the version of the running program
    otherwise. *)
Definition or_currentVersion (v : option VersionNumber) : VersionNumber :=
  match v with
  | Some v => if version_truthy v then v else currentVersion
  | None => currentVersion
  end.

(** The constructor, on either kind of configuration. *)
Definition newSyncMessage
    (config : SyncMessageDecoderConfig + SyncMessageConfig)
    (reg : DataRegistry) : SyncMessage :=
  match config with
  | inl d => deserialize (dec_orgId d) reg None (decoder d)
  | inr c =>
      {| orgId := cfg_orgId c;
         registry := reg;
         _buildVersion := Some (or_currentVersion (cfg_buildVersion c));
         _filter := cfg_filter c;
         _size := cfg_size c;
         _values := default [] (cfg_values c);
         _accessDenied := cfg_accessDenied c |}
  end.

(** Modelled from the spec: [CoroutineScheduler.map(array, body, ...)] of
    [base/coroutine.ts], which returns when the entire input is processed:
    [body] runs on each entry and its index, in order, and the results are
    collected; nothing in [decodeAsync] catches what [body] throws. *)
Fixpoint scheduler_map {A B} (body : A -> nat -> outcome B) (idx : nat)
    (arr : list A) : outcome (list B) :=
  match arr with
  | [] => Return []
  | a :: rest =>
      bind (body a idx) (fun b =>
      bind (scheduler_map body (S idx) rest) (fun bs => Return (b :: bs)))
  end.

(** Modelled from the spec: [CoroutineScheduler.forEach(iterable, body)]
    of [base/coroutine.ts]: [body] runs on each item in the order of the
    iterator, and the call returns when the entire input is processed. *)
Definition scheduler_forEach {A S} (body : S -> A -> S) (items : list A)
    (st : S) : S :=
  fold_left body items st.

Definition decodeAsync (decoderConfig : SyncMessageDecoderConfig)
    (reg : DataRegistry) : outcome SyncMessage :=
  let e := decoder decoderConfig in
  let buildVersion := enc_ver e in
  let f := bf_deserialize (bf_new 1 num_half) (enc_f e) in
  let sz := enc_s e in
  let ad := default [] (enc_ad e) in
  bind
    (match enc_c e with
     | None => Return None
     | Some commits =>
         bind (scheduler_map
                 (fun _obj idx =>
                    match commits !! idx with
                    | Some d => Commit_fromJS (dec_orgId decoderConfig) d reg
                    | None => Throw EmptyString
                    end) 0%nat commits)
              (fun vs => Return (Some vs))
     end)
    (fun vals =>
       Return (newSyncMessage
                 (inr {| cfg_filter := f;
                         cfg_size := sz;
                         cfg_orgId := dec_orgId decoderConfig;
                         cfg_values := vals;
                         cfg_accessDenied := Some ad;
                         cfg_buildVersion := buildVersion |}) reg)).

(** [Math.max(1, localSize, peerSize)]. *)
Definition numberOfEntries (localSize peerSize : Z) : Z :=
  Z.max 1 (Z.max localSize peerSize).

(** [lowAccuracy ? 0.5 : Math.min(0.5, 1 / Math.pow(n, 1 / (0.5 * C)))],
    with the operations of the platform's numbers. *)
Definition computeFpr (n : Z) (expectedSyncCycles : number)
    (lowAccuracy : bool) : number :=
  if lowAccuracy then num_half
  else Math_min num_half
         (num_div num_one
            (Math_pow (num_of_Z n)
               (num_div num_one (num_mul num_half expectedSyncCycles)))).

(** The variables that the scan of [build] updates. *)
Record Scan : Type := {
  localFilter : BloomFilter;
  localSize : Z;
  missingPeerValues : list Commit;
}.

(** The body of the scan, on one pair of the iterator. *)
Definition scanStep (peerFilter : BloomFilter) (st : Scan)
    (entry : string * Commit) : Scan :=
  let '(id, v) := entry in
  {| localFilter := bf_add (localFilter st) id;
     localSize := localSize st + 1;
     missingPeerValues :=
       if negb (bf_has peerFilter id) then missingPeerValues st ++ [v]
       else missingPeerValues st |}.

Definition emit (st : Scan) (org : string) (reg : DataRegistry)
  : SyncMessage :=
  newSyncMessage
    (inr {| cfg_filter := localFilter st;
            cfg_size := localSize st;
            cfg_orgId := org;
            cfg_values := Some (missingPeerValues st);
            cfg_accessDenied := None;
            cfg_buildVersion := None |}) reg.

Definition build (peerFilter : option BloomFilter)
    (vals : list (string * Commit)) (localSize0 peerSize : Z)
    (expectedSyncCycles : number) (org : string) (reg : DataRegistry)
    (includeMissing lowAccuracy : bool) : SyncMessage :=
  let n := numberOfEntries localSize0 peerSize in
  let fpr := computeFpr n expectedSyncCycles lowAccuracy in
  let st := {| localFilter := bf_new n fpr;
               localSize := localSize0;
               missingPeerValues := [] |} in
  let st :=
    match peerFilter with
    | Some pf =>
        if includeMissing then
          fold_left (scanStep pf) vals
            {| localFilter := localFilter st;
               localSize := 0;
               missingPeerValues := missingPeerValues st |}
        else st
    | None => st
    end in
  emit st org reg.

Definition buildAsync (peerFilter : option BloomFilter)
    (vals : list (string * Commit)) (localSize0 peerSize : Z)
    (expectedSyncCycles : number) (org : string) (reg : DataRegistry)
    (includeMissing lowAccuracy : bool) : SyncMessage :=
  let n := numberOfEntries localSize0 peerSize in
  let fpr := computeFpr n expectedSyncCycles lowAccuracy in
  let st := {| localFilter := bf_new n fpr;
               localSize := localSize0;
               missingPeerValues := [] |} in
  let st :=
    match peerFilter with
    | Some pf =>
        if includeMissing then
          scheduler_forEach (scanStep pf) vals
            {| localFilter := localFilter st;
               localSize := 0;
               missingPeerValues := missingPeerValues st |}
        else st
    | None => st
    end in
  emit st org reg.

(** The commits of an encoded array that decode, in the order of the
    array. *)
Definition decodedCommits (org : string) (reg : DataRegistry)
    (commits : list CommitDecoder) : list Commit :=
  flat_map (fun d => match Commit_fromJS org d reg with
                     | Return c => [c]
                     | Throw _ => []
                     end) commits.

(** The pairs that [build] scans: all of them when there is a peer filter
    and missing values are asked for, none otherwise. *)
Definition scanned (peerFilter : option BloomFilter) (includeMissing : bool)
    (vals : list (string * Commit)) : list (string * Commit) :=
  match peerFilter with
  | Some _ => if includeMissing then vals else []
  | None => []
  end.

End Model.
End Sync.

(** ** Writing a sync message, and session identifiers *)

(** The writing side of what [SyncEnv] reads: what an encoder stores for a
    filter under a key is what [getDecoder] of that key hands to
    [BloomFilter.deserialize], and what it stores for [c.toJS()] is what
    [Commit.fromJS] receives. *)
Class SyncCodec `{SyncEnv} : Type := {
  bf_serialize : BloomFilter -> FilterDecoder;
  Commit_toJS : Commit -> CommitDecoder;
}.

Module SyncWire.
Import JS Sync.

Section Model.
Context `{SyncCodec}.

(** The getter [buildVersion]. *)
Definition buildVersion (msg : SyncMessage) : option VersionNumber :=
  _buildVersion msg.

(** [serialize(encoder)]: the keys that the encoder holds afterwards. The
    getter [accessDenied] always answers an array, which is truthy, so the
    key ["ad"] is always written. *)
Definition serialize (msg : SyncMessage) : Encoded :=
  {| enc_ver := buildVersion msg;
     enc_f := bf_serialize (filter msg);
     enc_s := size msg;
     enc_c := Some (List.map Commit_toJS (values msg));
     enc_ad := Some (accessDenied msg) |}.

(** [generateSessionId(userId)], where [unique] is what the call of
    [uniqueId()] ([base/common.ts]) returned. *)
Definition generateSessionId (unique : string) (userId : string) : string :=
  (userId ++ "/" ++ unique)%string.

(** A commit of an encoded array fails to decode. *)
Definition failsToDecode (org : string) (reg : DataRegistry)
    (d : CommitDecoder) : bool :=
  match Commit_fromJS org d reg with
  | Return _ => false
  | Throw _ => true
  end.

End Model.
End SyncWire.

(** ** Concrete collaborators, for running the model on explicit inputs *)

Module Samples.
Import JS.

(** Modelled from the spec: [itemPathGetRepoId] of [mod.ts]. An item path
    reads [/<type>/<repo>/<item>] and its repository id is [/<type>/<repo>]
    (the item [bob] of the repository [/sys/users] is [/sys/users/bob]). *)
Definition repoIdOfPath (path : string) : string :=
  let parts :=
    match split "/" path with
    | EmptyString :: rest => rest
    | parts => parts
    end in
  match parts with
  | t :: r :: _ => "/" ++ t ++ "/" ++ r
  | [t] => "/" ++ t
  | [] => "/"
  end%string.

(** Modelled from the spec: the payload of an item is a mapping from string
    keys to values; here the values are integers. [coreValueClone] copies a
    value, and a copy is equal to its original. [Repository.normalizePath]
    is taken on repository ids that are already normalized. *)
Definition sampleEnv : Env :=
  {| CoreObject := list (string * Z);
     GoatDB := unit;
     coreValueClone := fun d => d;
     itemPathGetRepoId := repoIdOfPath;
     normalizePath := fun p => p |}.

(** Modelled from the spec: a payload as a JavaScript object, which has
    an identity besides its contents; the identity is a number here.
    [coreValueClone] returns another object with the same contents. *)
Definition objectEnv : Env :=
  {| CoreObject := nat * list (string * Z);
     GoatDB := unit;
     coreValueClone := fun d => (S (fst d), snd d);
     itemPathGetRepoId := repoIdOfPath;
     normalizePath := fun p => p |}.

Section Managers.
Context `{Env}.

(** The manager that a call returned; the empty one stands for a throw. *)
Definition returned (o : outcome SchemaMgr.SchemaManager)
  : SchemaMgr.SchemaManager :=
  match o with
  | Return m => m
  | Throw _ => {| SchemaMgr._schemas := ∅; SchemaMgr._authRules := [] |}
  end.

(** [new SchemaManager()], then [registerSchema] of each schema in turn. *)
Definition registry (schemas : list SchemaMgr.Schema)
  : SchemaMgr.SchemaManager :=
  fold_left (fun m s => returned (SchemaMgr.registerSchema s m)) schemas
    (returned SchemaMgr.newSchemaManager).

End Managers.

(** Schemas of a namespace [Note] over objects with an identity: version
    2 adds a field that records the version it came from, the other
    versions have no upgrade function. *)
Definition note (v : Z) : @SchemaMgr.Schema objectEnv :=
  {| SchemaMgr.ns := Some "Note"%string;
     SchemaMgr.version := v;
     SchemaMgr.schema_upgrade :=
       if v =? 2 then
         Some (fun (d : @CoreObject objectEnv) prev =>
                 (fst d, snd d ++ [("from"%string,
                                    SchemaMgr.info_version prev)]))
       else None |}.

(** Modelled from the spec: a bloom filter answers [has] with [true] for
    every id that was added. This one remembers the ids themselves, so it
    has no false positive either; an encoded filter is its list of ids. *)
Record ExactFilter : Type := {
  ef_size : Z;
  ef_fpr : R;
  ef_ids : list string;
}.

(** The real numbers in place of doubles: no rounding, no infinity, no
    NaN. They serve to run the model, and for the properties that say
    that they take numbers as reals. *)
Definition realNumbers : Numbers :=
  {| number := R;
     num_of_Z := IZR;
     num_half := 0.5%R;
     num_one := 1%R;
     num_mul := Rmult;
     num_div := Rdiv;
     Math_pow := Rpower;
     Math_min := Rmin |}.

#[local] Existing Instance realNumbers.

(** Commits are named by a string here; an encoded commit that cannot be
    decoded is [None]; a version is an integer, truthy unless 0. *)
Definition sampleSyncEnv : @SyncEnv realNumbers :=
  @Build_SyncEnv realNumbers
    ExactFilter
    (list string)
    (fun n fpr => {| ef_size := n; ef_fpr := fpr; ef_ids := [] |})
    (fun f id =>
       {| ef_size := ef_size f; ef_fpr := ef_fpr f;
          ef_ids := id :: ef_ids f |})
    (fun f id => existsb (String.eqb id) (ef_ids f))
    (fun f ids =>
       {| ef_size := ef_size f; ef_fpr := ef_fpr f; ef_ids := ids |})
    string
    (option string)
    unit
    (fun _ d _ =>
       match d with
       | Some c => Return c
       | None => Throw "corrupted commit"
       end)
    Z
    1
    (fun v => negb (v =? 0)).

#[local] Existing Instance sampleEnv.

(** Schemas of a namespace [Task]: version 2 adds a field that records the
    version it came from, version 3 adds a field in front. *)
Definition task (v : Z) : SchemaMgr.Schema :=
  {| SchemaMgr.ns := Some "Task"%string;
     SchemaMgr.version := v;
     SchemaMgr.schema_upgrade :=
       if v =? 2 then
         Some (fun d prev =>
                 d ++ [("from"%string, SchemaMgr.info_version prev)])
       else if v =? 3 then
         Some (fun d _ => ("done"%string, 0) :: d)
       else None |}.

(** Two user rules. *)
Definition allowAll : SchemaMgr.AuthRule := fun _ _ _ _ _ => true.
Definition denyAll : SchemaMgr.AuthRule := fun _ _ _ _ _ => false.

(** The manager of [new SchemaManager()]. *)
Definition fresh : SchemaMgr.SchemaManager := registry [].

(** A schema whose namespace holds the separator of markers. *)
Definition drafts : SchemaMgr.Schema :=
  {| SchemaMgr.ns := Some "docs/drafts"%string;
     SchemaMgr.version := 1;
     SchemaMgr.schema_upgrade := None |}.

#[local] Existing Instance sampleSyncEnv.

(** An encoded message whose second commit is corrupted. *)
Definition corrupted : Sync.SyncMessageDecoderConfig :=
  {| Sync.dec_orgId := "org";
     Sync.decoder :=
       {| Sync.enc_ver := Some 1;
          Sync.enc_f := ["a"; "b"; "c"]%string;
          Sync.enc_s := 3;
          Sync.enc_c := Some [Some "commit-a"; None; Some "commit-c"]%string;
          Sync.enc_ad := None |} |}.

(** The exact filter is encoded as its list of ids, a commit as itself. *)
Definition sampleCodec : @SyncCodec realNumbers sampleSyncEnv :=
  @Build_SyncCodec realNumbers sampleSyncEnv
    (fun f => ef_ids f) (fun c => Some c).

(** A message with two commits and one denial. *)
Definition sampleMessage : Sync.SyncMessage :=
  {| Sync.orgId := "org";
     Sync.registry := tt;
     Sync._buildVersion := Some 3;
     Sync._filter := {| ef_size := 2; ef_fpr := 0.5%R;
                        ef_ids := ["a"; "b"]%string |};
     Sync._size := 2;
     Sync._values := ["commit-a"; "commit-b"]%string;
     Sync._accessDenied := Some ["x"]%string |}.

(** A user rule that allows reads only. *)
Definition readOnly : SchemaMgr.AuthRule :=
  fun _ _ _ _ op =>
    match op with SchemaMgr.read => true | SchemaMgr.write => false end.

End Samples.

(** * Properties *)

(** ** Facts about the JavaScript primitives *)

Module JSFacts.
Import JS.

Lemma has_char_app c a b :
  has_char c (a ++ b) = has_char c a || has_char c b.
Proof.
  induction a as [|d a IH]; simpl; [reflexivity|].
  rewrite IH. apply orb_assoc.
Qed.

(** A string without the separator is one piece. *)
Lemma split_no_sep sep s :
  has_char sep s = false -> split sep s = [s].
Proof.
  induction s as [|c s IH]; simpl; [reflexivity|].
  intros Hc. apply orb_false_iff in Hc as [Hc Hs].
  rewrite Hc, (IH Hs). reflexivity.
Qed.

(** [(a + sep + b).split(sep)] when [a] has no separator. *)
Lemma split_app sep a b :
  has_char sep a = false ->
  split sep (a ++ String sep b) = a :: split sep b.
Proof.
  induction a as [|c a IH]; simpl.
  - intros _. rewrite Ascii.eqb_refl. reflexivity.
  - intros Hc. apply orb_false_iff in Hc as [Hc Ha].
    rewrite Hc, (IH Ha). reflexivity.
Qed.

(** A string that holds the character [c] differs from one that does not. *)
Lemma eqb_has_char c s t :
  has_char c s = true -> has_char c t = false -> String.eqb s t = false.
Proof.
  intros Hs Ht. apply String.eqb_neq. intros ->. congruence.
Qed.

Lemma string_of_uint_no_char c u :
  digit_value 10 c = None ->
  has_char c (NilEmpty.string_of_uint u) = false.
Proof.
  intros Hc.
  induction u; cbn [NilEmpty.string_of_uint has_char]; try reflexivity;
    rewrite IHu, orb_false_r; apply Ascii.eqb_neq; intros <-; discriminate.
Qed.

Lemma parse_digits_cons radix acc c d s :
  digit_value radix c = Some d ->
  parse_digits radix acc (String c s)
  = parse_digits radix (Some (radix * default 0%nat acc + d)%nat) s.
Proof. intros Hd. cbn [parse_digits]. rewrite Hd. reflexivity. Qed.

Lemma parse_digits_uint u a :
  parse_digits 10 (Some a) (NilEmpty.string_of_uint u)
  = Some (Nat.of_uint_acc u a).
Proof.
  revert a.
  induction u; intros a; cbn [NilEmpty.string_of_uint Nat.of_uint_acc];
    [reflexivity | ..];
    (erewrite parse_digits_cons by reflexivity);
    rewrite IHu, Nat.tail_mul_spec; do 2 f_equal; cbn [default];
    unfold Datatypes.id;
    match goal with
    | |- context [(nat_of_ascii ?c - 48)%nat] =>
        let k := eval vm_compute in (nat_of_ascii c - 48)%nat in
        change (nat_of_ascii c - 48)%nat with k
    end; lia.
Qed.

Lemma to_uint_not_nil n : Nat.to_uint n <> Decimal.Nil.
Proof.
  rewrite <- (Unsigned.of_to n) at 1. rewrite Unsigned.to_of.
  unfold Decimal.unorm. destruct (Decimal.nzhead (Nat.to_uint n));
    discriminate.
Qed.

Lemma parse_digits_nat n :
  parse_digits 10 None (nat_to_string n) = Some n.
Proof.
  unfold nat_to_string.
  pose proof (to_uint_not_nil n) as Hnil.
  rewrite <- (Unsigned.of_to n) at 2. unfold Nat.of_uint.
  destruct (Nat.to_uint n) as [|u|u|u|u|u|u|u|u|u|u]; [congruence | ..];
    cbn [NilEmpty.string_of_uint Nat.of_uint_acc];
    (erewrite parse_digits_cons by reflexivity);
    rewrite parse_digits_uint, Nat.tail_mul_spec; do 2 f_equal.
Qed.

Lemma strip_radix_uint u :
  strip_radix (NilEmpty.string_of_uint u)
  = (10%nat, NilEmpty.string_of_uint u).
Proof.
  destruct u as [|u|u|u|u|u|u|u|u|u|u]; try reflexivity;
    destruct u; reflexivity.
Qed.

Lemma trim_start_uint u :
  trim_start (NilEmpty.string_of_uint u) = NilEmpty.string_of_uint u.
Proof. destruct u; reflexivity. Qed.

Lemma strip_sign_uint u :
  strip_sign (NilEmpty.string_of_uint u)
  = (false, NilEmpty.string_of_uint u).
Proof. destruct u; reflexivity. Qed.

(** [parseInt] reads back the numeral of an integer. *)
Lemma parseInt_number_to_string v :
  parseInt (number_to_string v) = Some v.
Proof.
  unfold number_to_string, parseInt.
  destruct (Z.ltb_spec v 0) as [Hneg|Hpos].
  - cbn [trim_start is_white_space]. simpl strip_sign.
    unfold nat_to_string at 1. rewrite strip_radix_uint.
    fold (nat_to_string (Z.to_nat (- v))). rewrite parse_digits_nat.
    f_equal. lia.
  - unfold nat_to_string at 1. rewrite trim_start_uint, strip_sign_uint.
    rewrite strip_radix_uint.
    fold (nat_to_string (Z.to_nat v)). rewrite parse_digits_nat.
    f_equal. lia.
Qed.

Lemma number_to_string_no_slash v :
  has_char "/" (number_to_string v) = false.
Proof.
  unfold number_to_string, nat_to_string.
  destruct (v <? 0); simpl; apply string_of_uint_no_char; reflexivity.
Qed.

Example parseInt_examples :
  parseInt "12" = Some 12 /\ parseInt "-7" = Some (-7) /\
  parseInt " 42abc" = Some 42 /\ parseInt "0x1f" = Some 31 /\
  parseInt "abc" = None /\ parseInt EmptyString = None /\
  parseInt "0" = Some 0 /\ parseInt_opt None = None.
Proof. repeat split; reflexivity. Qed.

Example split_examples :
  split "/" "User/3" = ["User"; "3"]%string /\
  split "/" "a/b/1" = ["a"; "b"; "1"]%string /\
  split "/" "User" = ["User"]%string /\
  split "/" EmptyString = [EmptyString].
Proof. repeat split; reflexivity. Qed.

Example number_to_string_examples :
  number_to_string 0 = "0"%string /\ number_to_string 12 = "12"%string /\
  number_to_string (-3) = "-3"%string.
Proof. repeat split; reflexivity. Qed.

End JSFacts.

(** ** The schema registry *)

Module SchemaMgrFacts.
Import JS JSFacts SchemaMgr.

Section Registry.
Context `{Env}.

(** *** Sorting *)

Lemma sort_insert_perm x l : Permutation (sort_insert x l) (x :: l).
Proof.
  induction l as [|y l IH]; simpl; [reflexivity|].
  destruct (compareVersions x y <? 0); [reflexivity|].
  rewrite IH. apply perm_swap.
Qed.

Lemma sort_fold_perm l acc :
  Permutation (fold_left (fun acc x => sort_insert x acc) l acc) (acc ++ l).
Proof.
  revert acc. induction l as [|x l IH]; intros acc; simpl.
  - rewrite List.app_nil_r. reflexivity.
  - rewrite IH, sort_insert_perm. apply Permutation_middle.
Qed.

Lemma sort_perm l : Permutation (sort l) l.
Proof. unfold sort. apply (sort_fold_perm l []). Qed.

Lemma sort_insert_descending x l :
  descending l -> descending (sort_insert x l).
Proof.
  unfold descending. induction l as [|y l IH]; intros Hl; simpl.
  - constructor; [constructor | constructor].
  - inversion Hl as [|? ? Hl' Hy]; subst.
    destruct (Z.ltb_spec (compareVersions x y) 0) as [Hlt|Hge];
      unfold compareVersions in *.
    + constructor; [assumption|].
      constructor; [lia|].
      eapply List.Forall_impl; [|exact Hy]. simpl. intros; lia.
    + constructor; [auto|].
      apply List.Forall_forall. intros z Hz.
      apply (Permutation_in _ (sort_insert_perm x l)) in Hz.
      destruct Hz as [<-|Hz]; [lia|].
      rewrite List.Forall_forall in Hy. auto.
Qed.

Lemma sort_descending l : descending (sort l).
Proof.
  unfold sort.
  assert (Hacc : descending (@nil Schema)) by constructor.
  revert Hacc. generalize (@nil Schema).
  induction l as [|x l IH]; intros acc Hacc; simpl; [assumption|].
  apply IH, sort_insert_descending, Hacc.
Qed.

(** *** Looking a version up *)

Lemma findVersion_Some v arr s :
  findVersion v arr = Some s -> In s arr /\ v = Some (version s).
Proof.
  unfold findVersion. intros Hf. apply List.find_some in Hf as [Hin Hv].
  split; [assumption|]. destruct v; [|discriminate].
  apply Z.eqb_eq in Hv. congruence.
Qed.

Lemma findVersion_None v arr :
  findVersion (Some v) arr = None <->
  forall s, In s arr -> version s <> v.
Proof.
  unfold findVersion. split.
  - intros Hf s Hin. eapply List.find_none in Hf; [|exact Hin].
    simpl in Hf. apply Z.eqb_neq. exact Hf.
  - intros Hall. destruct (List.find _ arr) as [s|] eqn:Hf; [|reflexivity].
    apply List.find_some in Hf as [Hin Hv]. apply Z.eqb_eq in Hv.
    exfalso. eapply Hall; eauto.
Qed.

(** With one schema per version, a lookup finds the schema itself. *)
Lemma findVersion_unique arr s :
  List.NoDup (List.map version arr) -> In s arr ->
  findVersion (Some (version s)) arr = Some s.
Proof.
  unfold findVersion.
  induction arr as [|y arr IH]; intros Hnd Hin; [destruct Hin|].
  simpl in Hnd. apply List.NoDup_cons_iff in Hnd as [Hy Hnd].
  simpl. destruct (Z.eqb_spec (version y) (version s)) as [Heq|Hne].
  - destruct Hin as [->|Hin]; [reflexivity|].
    exfalso. apply Hy. rewrite Heq. apply List.in_map. exact Hin.
  - destruct Hin as [->|Hin]; [congruence|]. auto.
Qed.

(** *** The invariant of the registry *)

Lemma registerSchema_Return schema m m' :
  registerSchema schema m = Return m' ->
  exists n, ns schema = Some n /\
    _authRules m' = _authRules m /\
    _schemas m' =
      <[n := match findVersion (Some (version schema)) (schemasOf m n) with
             | None => sort (schemasOf m n ++ [schema])
             | Some _ => schemasOf m n
             end]> (_schemas m).
Proof.
  unfold registerSchema, is_null_ns, schemasOf.
  destruct (ns schema) as [n|]; simpl; [|discriminate].
  intros [= <-]. exists n. simpl. auto.
Qed.

Lemma registerSchema_throws schema m :
  ns schema = None -> registerSchema schema m = Throw EmptyString.
Proof. unfold registerSchema, is_null_ns. intros ->. reflexivity. Qed.

Lemma wf_empty rules : wf {| _schemas := ∅; _authRules := rules |}.
Proof.
  intros n arr Hn. simpl in Hn. rewrite lookup_empty in Hn. discriminate.
Qed.

Lemma wf_schemasOf m n :
  wf m -> schemasOf m n = [] \/ wfArr n (schemasOf m n).
Proof.
  intros Hwf. unfold schemasOf.
  destruct (_schemas m !! n) as [arr|] eqn:Hn; simpl; eauto.
Qed.

Lemma registerSchema_wf schema m m' :
  wf m -> registerSchema schema m = Return m' -> wf m'.
Proof.
  intros Hwf Hreg.
  apply registerSchema_Return in Hreg as (n & Hns & _ & Hsch).
  intros n' arr' Hn'. rewrite Hsch in Hn'.
  destruct (decide (n = n')) as [<-|Hne];
    [|rewrite lookup_insert_ne in Hn' by assumption; eauto].
  rewrite lookup_insert_eq in Hn'. injection Hn' as <-.
  destruct (findVersion _ _) as [s|] eqn:Hfind.
  - apply findVersion_Some in Hfind as [Hin _].
    destruct (wf_schemasOf m n Hwf) as [Hnil|Harr]; [|assumption].
    rewrite Hnil in Hin. destruct Hin.
  - pose proof (sort_perm (schemasOf m n ++ [schema])) as Hperm.
    assert (Hold : List.NoDup (List.map version (schemasOf m n)) /\
                   List.Forall (fun s => ns s = Some n) (schemasOf m n)).
    { destruct (wf_schemasOf m n Hwf) as [->|(_ & Hnd & _ & Hall)].
      - split; constructor.
      - auto. }
    destruct Hold as [Hnd Hall].
    repeat split.
    + intros Hnil. rewrite Hnil in Hperm.
      apply Permutation_nil in Hperm.
      destruct (schemasOf m n); discriminate.
    + eapply Permutation_NoDup;
        [apply Permutation_map, Permutation_sym, Hperm|].
      rewrite List.map_app. simpl.
      apply List.NoDup_incl_NoDup with
        (l := version schema :: List.map version (schemasOf m n)).
      * constructor; [|assumption].
        intros Hin. apply List.in_map_iff in Hin as (s & Hv & Hin).
        eapply findVersion_None in Hfind; eauto.
      * rewrite List.length_app. simpl. lia.
      * intros v Hv. apply List.in_app_iff.
        destruct Hv as [<-|Hv]; simpl; auto.
    + apply sort_descending.
    + apply List.Forall_forall. intros s Hs.
      apply (Permutation_in _ Hperm) in Hs.
      apply List.in_app_iff in Hs as [Hs|[<-|[]]]; [|assumption].
      rewrite List.Forall_forall in Hall. auto.
Qed.

Lemma registerAuthRule_schemas p r m m' :
  registerAuthRule p r m = Return m' -> _schemas m' = _schemas m.
Proof.
  unfold registerAuthRule.
  destruct (assertRulePaths _ _); simpl; [|discriminate].
  intros [= <-]. reflexivity.
Qed.

Lemma bind_Return {A B} (o : outcome A) (k : A -> outcome B) b :
  bind o k = Return b -> exists a, o = Return a /\ k a = Return b.
Proof. destruct o; simpl; [eauto | discriminate]. Qed.

Lemma reachable_wf m : reachable m -> wf m.
Proof.
  induction 1 as [m Hnew | m s m' _ IH Hreg | m p r m' _ IH Hreg].
  - unfold newSchemaManager in Hnew.
    apply bind_Return in Hnew as (m1 & H1 & Hnew).
    apply bind_Return in Hnew as (m2 & H2 & H3).
    eauto using registerSchema_wf, wf_empty.
  - eauto using registerSchema_wf.
  - intros n arr Hn. apply registerAuthRule_schemas in Hreg.
    rewrite Hreg in Hn. eauto.
Qed.

(** The constructor returns. *)
Lemma newSchemaManager_returns : exists m, newSchemaManager = Return m.
Proof. eexists. reflexivity. Qed.

(** *** Lookups in a registry that registrations built *)

Lemma schemasOf_lookup m n s :
  In s (schemasOf m n) -> _schemas m !! n = Some (schemasOf m n).
Proof.
  unfold schemasOf. destruct (_schemas m !! n); simpl; [reflexivity|].
  intros [].
Qed.

Lemma get_registered m n s :
  wf m -> In s (schemasOf m n) -> version s <> 0 ->
  get m n (Some (version s)) = Some s.
Proof.
  intros Hwf Hin Hv. unfold get.
  pose proof (schemasOf_lookup m n s Hin) as Hn. rewrite Hn.
  apply Hwf in Hn as (_ & Hnd & _).
  simpl. destruct (Z.eqb_spec (version s) 0); [contradiction|]. simpl.
  apply findVersion_unique; assumption.
Qed.

Lemma get_unregistered m n v :
  v <> 0 -> ~ hasVersion m n v -> get m n (Some v) = None.
Proof.
  intros Hv Hno. unfold get.
  destruct (_schemas m !! n) as [arr|] eqn:Hn; [|reflexivity].
  simpl. destruct (Z.eqb_spec v 0); [contradiction|]. simpl.
  apply findVersion_None. intros s Hin Hs. apply Hno.
  exists s. unfold schemasOf. rewrite Hn. auto.
Qed.

Lemma get_version m n v s :
  v <> 0 -> get m n (Some v) = Some s ->
  version s = v /\ In s (schemasOf m n).
Proof.
  unfold get, schemasOf. intros Hv.
  destruct (_schemas m !! n) as [arr|]; [|discriminate].
  simpl. destruct (Z.eqb_spec v 0); [contradiction|]. simpl.
  intros Hf. apply findVersion_Some in Hf as [Hin [= ->]]. auto.
Qed.

Lemma registered_ns m n s :
  wf m -> In s (schemasOf m n) -> ns s = Some n.
Proof.
  intros Hwf Hin. pose proof (schemasOf_lookup m n s Hin) as Hn.
  apply Hwf in Hn as (_ & _ & _ & Hall).
  rewrite List.Forall_forall in Hall. auto.
Qed.

(** C10: for a namespace with at least one registered schema,
    [get(ns, 0)] returns what [get(ns)] returns with the version omitted,
    and that is the registered schema of the highest version: a version
    argument of 0 is treated as absent. *)
Theorem get_zero_is_latest m n s0 :
  reachable m -> In s0 (schemasOf m n) ->
  exists latest,
    get m n (Some 0) = Some latest /\ get m n None = Some latest /\
    In latest (schemasOf m n) /\
    forall s, In s (schemasOf m n) -> version s <= version latest.
Proof.
  intros Hreach Hin. apply reachable_wf in Hreach.
  pose proof (schemasOf_lookup m n s0 Hin) as Hn.
  pose proof (Hreach _ _ Hn) as (Hne & _ & Hdesc & _).
  unfold get. rewrite Hn. simpl.
  destruct (schemasOf m n) as [|latest arr]; [contradiction|].
  exists latest. repeat split; simpl; auto.
  intros s [<-|Hs]; [lia|].
  inversion Hdesc as [|? ? _ Hall]; subst.
  rewrite List.Forall_forall in Hall. auto.
Qed.

(** *** Markers *)

Lemma marker_not_null n v :
  String.eqb (n ++ "/" ++ number_to_string v) "null" = false.
Proof.
  apply eqb_has_char with (c := "/"%char); [|reflexivity].
  rewrite has_char_app. simpl. apply orb_true_r.
Qed.

(** Decoding the marker of [(n, v)] looks [v] up in the namespace [n]. *)
Lemma decode_marker m n v :
  has_char "/" n = false ->
  decode m (n ++ "/" ++ number_to_string v) = get m n (Some v).
Proof.
  intros Hn. unfold decode. rewrite marker_not_null.
  change ("/" ++ number_to_string v)%string
    with (String "/" (number_to_string v)).
  rewrite (split_app _ _ _ Hn).
  rewrite (split_no_sep _ _ (number_to_string_no_slash v)).
  simpl. rewrite parseInt_number_to_string. reflexivity.
Qed.

(** C7, as amended: for a manager that registrations built, decoding the
    marker of a registered schema returns that schema when its namespace
    has no ["/"] and its version is a non-zero safe integer; decoding the
    marker of the null schema returns the null schema; and decoding the
    marker of a namespace without ["/"] and a non-zero safe integer
    version that is not registered returns none. *)
Theorem decode_encode_inverse m :
  reachable m ->
  (forall s n,
     registered m s -> ns s = Some n -> has_char "/" n = false ->
     version s <> 0 -> safe_integer (version s) ->
     decode m (encode s) = Some s) /\
  decode m (encode kNullSchema) = Some kNullSchema /\
  (forall n v,
     has_char "/" n = false -> v <> 0 -> safe_integer v ->
     ~ hasVersion m n v ->
     decode m (n ++ "/" ++ number_to_string v) = None).
Proof.
  intros Hreach. apply reachable_wf in Hreach. repeat split.
  - intros s n (n' & Hns' & Hin) Hns Hslash Hv _.
    assert (n' = n) as -> by congruence.
    unfold encode. rewrite Hns. rewrite decode_marker by assumption.
    apply get_registered; assumption.
  - intros n v Hslash Hv _ Hno. rewrite decode_marker by assumption.
    apply get_unregistered; assumption.
Qed.

(** *** Upgrades *)

Lemma upgradeLoop_missing m n count i cur d j :
  i <= j < i + Z.of_nat count -> get m n (Some j) = None ->
  upgradeLoop m (Some n) count i cur d = None.
Proof.
  revert i cur d. induction count as [|count IH]; intros i cur d Hj Hget;
    [lia|].
  cbn [upgradeLoop get_nullable].
  destruct (get m n (Some i)) as [schema|] eqn:Hi; [|reflexivity].
  apply IH; [|assumption].
  assert (j <> i) by congruence. lia.
Qed.

Lemma aimsAt_get m n targetSchema vt :
  aimsAt m n targetSchema vt -> vt <> 0 ->
  or_string (from_option ns None targetSchema) (Some n) = Some n /\
  exists latest,
    get m n (option_map version targetSchema) = Some latest /\
    version latest = vt.
Proof.
  destruct targetSchema as [t|]; simpl.
  - intros (Hns & (s & Hin & Hs) & ->) Hv. rewrite Hns. split.
    + simpl. destruct (String.eqb n EmptyString); reflexivity.
    + unfold get. rewrite (schemasOf_lookup m n s Hin). simpl.
      destruct (Z.eqb_spec (version t) 0); [contradiction|]. simpl.
      destruct (findVersion _ _) as [latest|] eqn:Hf.
      * exists latest. split; [reflexivity|].
        apply findVersion_Some in Hf as [_ [= ->]]. reflexivity.
      * exfalso. eapply findVersion_None in Hf; eauto.
  - intros (l & Hl & ->) _. split; [reflexivity|].
    exists l. split; [|reflexivity].
    unfold get, schemasOf in *.
    destruct (_schemas m !! n); simpl in *; [assumption | discriminate].
Qed.

(** C8, as amended: when the namespace is not null, the version aimed at
    (the target's, registered, or the latest when the target is omitted)
    is above [fromSchema.version], which is not negative, and some version
    strictly between the two is not registered, [upgrade] returns none. *)
Theorem upgrade_missing_intermediate m d fromSchema targetSchema n vt i :
  ns fromSchema = Some n ->
  aimsAt m n targetSchema vt ->
  0 <= version fromSchema ->
  version fromSchema < i < vt ->
  ~ hasVersion m n i ->
  upgrade m d fromSchema targetSchema = Return None.
Proof.
  intros Hns Haim H0 Hi Hno.
  destruct (aimsAt_get m n targetSchema vt Haim ltac:(lia))
    as (Hn & latest & Hlatest & Hvt).
  unfold upgrade, is_null_ns. rewrite Hns, andb_false_r. simpl.
  rewrite Hn. cbn [get_nullable]. rewrite Hlatest.
  destruct (Z.eqb_spec (version latest) (version fromSchema)); [lia|].
  f_equal. apply upgradeLoop_missing with (j := i); [lia|].
  apply get_unregistered; [lia | assumption].
Qed.

Lemma last_cons_default (s : Schema) rest cur :
  List.last (s :: rest) cur = List.last rest s.
Proof.
  revert s cur.
  induction rest as [|s' rest IH]; intros s cur; [reflexivity|].
  change (List.last (s :: s' :: rest) cur) with (List.last (s' :: rest) cur).
  rewrite (IH s' cur), (IH s' s). reflexivity.
Qed.

Lemma last_in (first : Schema) rest :
  In (List.last rest first) (first :: rest).
Proof.
  revert first. induction rest as [|s rest IH]; intros first;
    [left; reflexivity|].
  rewrite last_cons_default. right. apply IH.
Qed.

Lemma consecutive_last cur rest :
  consecutive cur rest ->
  version (List.last rest cur) = version cur + Z.of_nat (length rest).
Proof.
  revert cur. induction rest as [|s rest IH]; intros cur Hc.
  - simpl. lia.
  - destruct Hc as [Hs Hc]. rewrite last_cons_default, (IH s Hc).
    cbn [length]. lia.
Qed.

Lemma last_app_default (pre post : list Schema) cur :
  List.last (pre ++ post) cur = List.last post (List.last pre cur).
Proof.
  revert cur. induction pre as [|s pre IH]; intros cur; [reflexivity|].
  rewrite <- List.app_comm_cons, !last_cons_default. apply IH.
Qed.

Lemma consecutive_app cur pre post :
  consecutive cur (pre ++ post) <->
  consecutive cur pre /\ consecutive (List.last pre cur) post.
Proof.
  revert cur. induction pre as [|s pre IH]; intros cur.
  - simpl. tauto.
  - rewrite last_cons_default. simpl. rewrite IH. tauto.
Qed.

Lemma applyChain_snd d first rest :
  snd (applyChain d first rest) = List.last rest first.
Proof.
  unfold applyChain. revert d first.
  induction rest as [|s rest IH]; intros d first; [reflexivity|].
  rewrite last_cons_default. simpl. unfold applyStep at 2. apply IH.
Qed.

Lemma applyChain_app d first pre post :
  applyChain d first (pre ++ post)
  = applyChain (fst (applyChain d first pre))
      (snd (applyChain d first pre)) post.
Proof.
  unfold applyChain. rewrite fold_left_app.
  destruct (fold_left applyStep pre (d, first)); reflexivity.
Qed.

(** The loop walks a registered chain and performs its steps in order. *)
Lemma upgradeLoop_chain m n rest cur d :
  wf m -> 0 <= version cur -> consecutive cur rest ->
  List.Forall (fun s => In s (schemasOf m n)) rest ->
  upgradeLoop m (Some n) (length rest) (version cur + 1) cur d
  = Some (applyChain d cur rest).
Proof.
  intros Hwf. revert cur d.
  induction rest as [|s rest IH]; intros cur d Hcur Hc Hall;
    [reflexivity|].
  destruct Hc as [Hs Hc]. inversion Hall as [|? ? Hin Hall']; subst.
  cbn [length upgradeLoop get_nullable].
  rewrite <- Hs, (get_registered m n s Hwf Hin) by lia.
  rewrite IH by (assumption || lia). reflexivity.
Qed.

(** What [upgrade] returns on a registered chain; with no step to take it
    returns the data it was given. *)
Lemma upgrade_chain_exact m d first rest n :
  wf m -> ns first = Some n ->
  List.Forall (fun s => In s (schemasOf m n)) (first :: rest) ->
  consecutive first rest -> 0 < version first ->
  upgrade m d first (Some (List.last rest first))
  = Return (Some (match rest with
                  | [] => (d, first)
                  | _ => applyChain (coreValueClone d) first rest
                  end)).
Proof.
  intros Hwf Hns Hall Hc Hv.
  pose proof (consecutive_last first rest Hc) as Hlast.
  assert (Hin : In (List.last rest first) (schemasOf m n)).
  { rewrite List.Forall_forall in Hall. apply Hall, last_in. }
  pose proof (registered_ns m n _ Hwf Hin) as Hnst.
  unfold upgrade, is_null_ns. rewrite Hns, Hnst. simpl.
  assert (Hor : or_string (Some n) (Some n) = Some n)
    by (simpl; destruct (String.eqb n EmptyString); reflexivity).
  rewrite Hnst, Hor. cbn [get_nullable].
  rewrite (get_registered m n _ Hwf Hin) by lia.
  destruct (Z.eqb_spec (version (List.last rest first)) (version first))
    as [Heq|Hne].
  - destruct rest; [reflexivity | cbn [length] in Hlast; lia].
  - destruct rest as [|s rest]; [simpl in Hne; congruence|].
    rewrite Hlast.
    replace (Z.to_nat (version first + Z.of_nat (length (s :: rest))
                       - version first)) with (length (s :: rest)) by lia.
    inversion Hall; subst.
    rewrite upgradeLoop_chain by (assumption || lia). reflexivity.
Qed.

(** C9, amended: for a chain [first :: rest] of consecutive versions, all
    registered in one namespace and starting at a positive version,
    [upgrade] from [first] to the last schema of the chain returns that
    last schema; with it comes the data itself when the chain is the one
    schema [first], and otherwise the per-step upgrades applied in
    ascending order to a clone of the data. Upgrading to a later schema
    of the chain first and performing the remaining steps one at a time
    on what that returns gives the same; a second call of [upgrade] from
    there performs these steps on a clone of what the first returned. *)
Theorem upgrade_chain m d first rest n :
  reachable m ->
  ns first = Some n ->
  List.Forall (fun s => In s (schemasOf m n)) (first :: rest) ->
  consecutive first rest ->
  0 < version first ->
  upgrade m d first (Some (List.last rest first))
  = Return (Some (match rest with
                  | [] => (d, first)
                  | _ => applyChain (coreValueClone d) first rest
                  end)) /\
  snd (applyChain (coreValueClone d) first rest) = List.last rest first /\
  forall pre post, rest = pre ++ post -> pre <> [] ->
    exists d1 s1,
      upgrade m d first (Some (List.last pre first))
      = Return (Some (d1, s1)) /\
      applyChain (coreValueClone d) first rest = applyChain d1 s1 post /\
      (post <> [] ->
       upgrade m d1 s1 (Some (List.last rest first))
       = Return (Some (applyChain (coreValueClone d1) s1 post))).
Proof.
  intros Hreach Hns Hall Hc Hv. apply reachable_wf in Hreach.
  split; [apply (upgrade_chain_exact m d first rest n); assumption|].
  split; [apply applyChain_snd|].
  intros pre post -> Hpre.
  apply consecutive_app in Hc as [Hcpre Hcpost].
  pose proof Hall as Hall'. rewrite List.app_comm_cons in Hall'.
  apply List.Forall_app in Hall' as [Hallpre Hallpost].
  exists (fst (applyChain (coreValueClone d) first pre)),
         (snd (applyChain (coreValueClone d) first pre)).
  split; [|split].
  - rewrite (upgrade_chain_exact m d first pre n) by assumption.
    destruct pre; [contradiction|].
    destruct (applyChain (coreValueClone d) first (s :: pre)); reflexivity.
  - apply applyChain_app.
  - intros Hpost. rewrite last_app_default, applyChain_snd.
    assert (Hmid : In (List.last pre first) (schemasOf m n)).
    { rewrite List.Forall_forall in Hallpre. apply Hallpre, last_in. }
    rewrite (upgrade_chain_exact m _ (List.last pre first) post n).
    + destruct post; [contradiction | reflexivity].
    + assumption.
    + apply (registered_ns m n); assumption.
    + constructor; assumption.
    + assumption.
    + rewrite (consecutive_last first pre Hcpre). lia.
Qed.

End Registry.

(** *** Runs on explicit registries *)

Section Registries.
Import Samples.
Context `{Env}.

Lemma reachable_registry schemas :
  List.Forall (fun s => ns s <> None) schemas ->
  reachable (registry schemas).
Proof.
  unfold registry.
  assert (Hinit : reachable (returned newSchemaManager))
    by (apply reachable_new; reflexivity).
  revert Hinit. generalize (returned newSchemaManager).
  induction schemas as [|s schemas IH]; intros m Hm Hall; simpl;
    [assumption|].
  inversion Hall as [|? ? Hs Hall']; subst.
  apply IH; [|assumption].
  apply reachable_registerSchema with (m := m) (s := s); [assumption|].
  unfold registerSchema, is_null_ns.
  destruct (ns s); [reflexivity | contradiction].
Qed.

End Registries.

Section Runs.
Import Samples.
#[local] Existing Instance sampleEnv.

Lemma decode_encode_inverse_witness :
  reachable (registry [task 1; task 2]) /\
  decode (registry [task 1; task 2]) (encode (task 2)) = Some (task 2) /\
  decode (registry [task 1; task 2]) "Task/7" = None.
Proof.
  assert (Hreach : reachable (registry [task 1; task 2])).
  { apply reachable_registry. repeat constructor; discriminate. }
  split; [exact Hreach|].
  destruct (decode_encode_inverse (registry [task 1; task 2]) Hreach)
    as (Hreg & _ & Hnone).
  split.
  - apply (Hreg (task 2) "Task"%string).
    + exists "Task"%string. split; [reflexivity|].
      vm_compute. auto.
    + reflexivity.
    + reflexivity.
    + discriminate.
    + unfold safe_integer, MAX_SAFE_INTEGER. simpl. lia.
  - apply (Hnone "Task"%string 7).
    + reflexivity.
    + discriminate.
    + unfold safe_integer, MAX_SAFE_INTEGER. lia.
    + intros (s & Hin & Hv). vm_compute in Hin.
      destruct Hin as [<-|[<-|[]]]; discriminate.
Defined.

(** C7 fails as stated on a registered schema of version 0: with versions
    0 and 1 of [Task] registered, decoding the marker of version 0 returns
    version 1. It also fails on a registered schema whose namespace holds
    a ["/"]: the marker is cut at the first one. *)
Lemma decode_encode_version_zero :
  (reachable (registry [task 0; task 1]) /\
   registered (registry [task 0; task 1]) (task 0) /\
   encode (task 0) = "Task/0"%string /\
   decode (registry [task 0; task 1]) (encode (task 0)) = Some (task 1) /\
   decode (registry [task 0; task 1]) (encode (task 0)) <> Some (task 0)) /\
  (reachable (registry [drafts]) /\
   registered (registry [drafts]) drafts /\
   encode drafts = "docs/drafts/1"%string /\
   decode (registry [drafts]) (encode drafts) = None).
Proof.
  split.
  - split; [apply reachable_registry; repeat constructor; discriminate|].
    split; [exists "Task"%string; split; [reflexivity | vm_compute; auto]|].
    split; [reflexivity|].
    split; [reflexivity|].
    intros Heq. assert (Hd : decode (registry [task 0; task 1])
                               (encode (task 0)) = Some (task 1))
      by reflexivity.
    rewrite Hd in Heq. discriminate Heq.
  - split; [apply reachable_registry; repeat constructor; discriminate|].
    split; [exists "docs/drafts"%string; split;
            [reflexivity | vm_compute; auto]|].
    split; reflexivity.
Qed.

Lemma get_zero_is_latest_witness :
  reachable (registry [task 1; task 3; task 2]) /\
  In (task 1) (schemasOf (registry [task 1; task 3; task 2]) "Task") /\
  exists latest,
    get (registry [task 1; task 3; task 2]) "Task" (Some 0) = Some latest /\
    get (registry [task 1; task 3; task 2]) "Task" None = Some latest /\
    In latest (schemasOf (registry [task 1; task 3; task 2]) "Task") /\
    forall s, In s (schemasOf (registry [task 1; task 3; task 2]) "Task") ->
              version s <= version latest.
Proof.
  assert (Hreach : reachable (registry [task 1; task 3; task 2])).
  { apply reachable_registry. repeat constructor; discriminate. }
  assert (Hin : In (task 1)
                  (schemasOf (registry [task 1; task 3; task 2]) "Task")).
  { vm_compute. auto. }
  split; [exact Hreach|]. split; [exact Hin|].
  exact (get_zero_is_latest _ "Task"%string (task 1) Hreach Hin).
Defined.

Example get_examples :
  get (registry [task 1; task 3; task 2]) "Task" (Some 0) = Some (task 3) /\
  get (registry [task 1; task 3; task 2]) "Task" None = Some (task 3) /\
  get (registry [task 1; task 3; task 2]) "Task" (Some 2) = Some (task 2) /\
  get (registry [task 1; task 3; task 2]) "Task" (Some 4) = None /\
  get (registry [task 1; task 3; task 2]) "Other" None = None /\
  schemasOf (registry [task 1; task 3; task 2; task 3]) "Task"
  = [task 3; task 2; task 1].
Proof. repeat split; reflexivity. Qed.

Lemma upgrade_missing_intermediate_witness :
  ns (task 1) = Some "Task"%string /\
  aimsAt (registry [task 1; task 3]) "Task" (Some (task 3)) 3 /\
  0 <= version (task 1) /\
  version (task 1) < 2 < 3 /\
  ~ hasVersion (registry [task 1; task 3]) "Task" 2 /\
  upgrade (registry [task 1; task 3]) [("title"%string, 7)] (task 1)
    (Some (task 3)) = Return None.
Proof.
  assert (Haim : aimsAt (registry [task 1; task 3]) "Task"
                   (Some (task 3)) 3).
  { split; [reflexivity|]. split; [|reflexivity].
    exists (task 3). split; [vm_compute; auto | reflexivity]. }
  assert (Hno : ~ hasVersion (registry [task 1; task 3]) "Task" 2).
  { intros (s & Hin & Hv). vm_compute in Hin.
    destruct Hin as [<-|[<-|[]]]; discriminate. }
  assert (Hi : version (task 1) < 2 < 3) by (simpl; lia).
  assert (H0 : 0 <= version (task 1)) by (simpl; lia).
  repeat (split; [assumption || reflexivity|]).
  exact (upgrade_missing_intermediate (registry [task 1; task 3])
           [("title"%string, 7)] (task 1) (Some (task 3)) "Task"%string 3 2
           eq_refl Haim H0 Hi Hno).
Defined.

(** C8 fails as stated when the target version itself is not registered:
    with version 1 of [Task] alone registered, upgrading from version 1 to
    version 3 (version 2 is missing) returns the data with its schema,
    not none. *)
Lemma upgrade_unregistered_target :
  ns (task 1) = ns (task 3) /\
  version (task 1) < 2 < version (task 3) /\
  ~ hasVersion (registry [task 1]) "Task" 2 /\
  upgrade (registry [task 1]) [("title"%string, 7)] (task 1) (Some (task 3))
  = Return (Some ([("title"%string, 7)], task 1)) /\
  upgrade (registry [task 1]) [("title"%string, 7)] (task 1) (Some (task 3))
  <> Return None.
Proof.
  split; [reflexivity|]. split; [simpl; lia|].
  split.
  { intros (s & Hin & Hv). vm_compute in Hin.
    destruct Hin as [<-|[]]; discriminate. }
  split; [reflexivity|].
  assert (Hup : upgrade (registry [task 1]) [("title"%string, 7)] (task 1)
                  (Some (task 3))
                = Return (Some ([("title"%string, 7)], task 1)))
    by reflexivity.
  rewrite Hup. discriminate.
Qed.

Lemma upgrade_chain_witness :
  let m := registry [note 1; note 2; note 3] in
  let d : @CoreObject objectEnv := (0%nat, [("title"%string, 7)]) in
  reachable m /\
  ns (note 1) = Some "Note"%string /\
  List.Forall (fun s => In s (schemasOf m "Note"))
    [note 1; note 2; note 3] /\
  consecutive (note 1) [note 2; note 3] /\
  0 < version (note 1) /\
  upgrade m d (note 1) (Some (note 3))
  = Return (Some (applyChain (coreValueClone d) (note 1)
                    [note 2; note 3])) /\
  upgrade m d (note 1) (Some (note 3))
  = Return (Some ((1%nat, [("title"%string, 7); ("from"%string, 1)]),
                  note 3)).
Proof.
  intros m d.
  assert (Hreach : reachable m).
  { apply reachable_registry. repeat constructor; discriminate. }
  assert (Hall : List.Forall (fun s => In s (schemasOf m "Note"))
                   [note 1; note 2; note 3]).
  { repeat (apply List.Forall_cons; [vm_compute; auto|]). constructor. }
  assert (Hc : consecutive (note 1) [note 2; note 3])
    by (simpl; repeat split; lia).
  assert (Hv : 0 < version (note 1)) by (simpl; lia).
  do 5 (split; [assumption || reflexivity|]).
  split; [|reflexivity].
  exact (proj1 (upgrade_chain m d (note 1) [note 2; note 3]
                  "Note"%string Hreach eq_refl Hall Hc Hv)).
Defined.

(** C9 fails as stated on the chain of a single schema: [upgrade] from a
    registered schema to itself returns the object it was given, where
    the claim has a clone of it. *)
Lemma upgrade_single_schema_returns_data :
  let m := registry [note 1; note 2] in
  let d : @CoreObject objectEnv := (0%nat, [("title"%string, 7)]) in
  reachable m /\
  In (note 1) (schemasOf m "Note") /\
  consecutive (note 1) [] /\
  upgrade m d (note 1) (Some (List.last [] (note 1)))
  = Return (Some (d, note 1)) /\
  coreValueClone d <> d /\
  upgrade m d (note 1) (Some (List.last [] (note 1)))
  <> Return (Some (applyChain (coreValueClone d) (note 1) [])).
Proof.
  intros m d.
  split; [apply reachable_registry; repeat constructor; discriminate|].
  split; [vm_compute; auto|].
  split; [exact I|].
  split; [reflexivity|].
  split; [discriminate|].
  assert (Hup : upgrade m d (note 1) (Some (List.last [] (note 1)))
                = Return (Some (d, note 1))) by reflexivity.
  rewrite Hup. unfold applyChain. cbn [fold_left]. intros Heq.
  assert (Hid : fst d = fst (coreValueClone d)) by congruence.
  discriminate Hid.
Qed.

Example upgrade_examples :
  upgrade (registry [task 1; task 2; task 3]) [("title"%string, 7)]
    (task 1) (Some (task 3))
  = Return (Some ([("done"%string, 0); ("title"%string, 7);
                   ("from"%string, 1)], task 3)) /\
  upgrade (registry [task 1; task 2; task 3]) [("title"%string, 7)]
    (task 1) None
  = Return (Some ([("done"%string, 0); ("title"%string, 7);
                   ("from"%string, 1)], task 3)) /\
  upgrade (registry [task 1; task 2; task 3]) [("title"%string, 7)]
    (task 3) None
  = Return (Some ([("title"%string, 7)], task 3)) /\
  upgrade (registry [task 1; task 3]) [("title"%string, 7)] (task 1) None
  = Return None /\
  upgrade (registry []) [("title"%string, 7)] kNullSchema None
  = Return (Some ([("title"%string, 7)], kNullSchema)).
Proof. repeat split; reflexivity. Qed.

End Runs.
End SchemaMgrFacts.

(** ** The authorization matcher *)

Module AuthFacts.
Import JS SchemaMgr.

Section Matcher.
Context `{Env}.

Lemma strict_equal_refl p : strict_equal p p = true.
Proof.
  destruct p; simpl; [apply String.eqb_refl | apply Nat.eqb_refl].
Qed.

(** The loop of assertions passes exactly when every registered path is
    the very path being registered. *)
Lemma assertRulePaths_Return rules path :
  assertRulePaths rules path = Return tt <->
  List.Forall (fun e => strict_equal (rulePath e) path = true) rules.
Proof.
  induction rules as [|e rules IH]; simpl.
  - split; [constructor | reflexivity].
  - unfold assert. destruct (strict_equal (rulePath e) path) eqn:He; simpl.
    + rewrite IH. split; [constructor; auto | inversion 1; auto].
    + split; [discriminate | inversion 1; congruence].
Qed.

Lemma assertRulePaths_Throw rules path :
  List.Exists (fun e => strict_equal (rulePath e) path = false) rules ->
  assertRulePaths rules path
  = Throw "Attempting to register multiple rules for the same path".
Proof.
  induction 1 as [e rules He | e rules _ IH]; simpl; unfold assert.
  - rewrite He. reflexivity.
  - destruct (strict_equal (rulePath e) path); simpl; [exact IH|].
    reflexivity.
Qed.

(** Registering once more the path that every registered rule has is
    accepted, and appends a further rule for it. *)
Lemma registerAuthRule_same_path p r m :
  List.Forall (fun e => rulePath e = storedPath p) (_authRules m) ->
  registerAuthRule p r m
  = Return {| _schemas := _schemas m;
              _authRules :=
                _authRules m ++ [{| rulePath := storedPath p; rule := r |}] |}.
Proof.
  intros Hall. unfold registerAuthRule. fold (storedPath p).
  assert (Hok : assertRulePaths (_authRules m) (storedPath p) = Return tt).
  { apply assertRulePaths_Return.
    eapply List.Forall_impl; [|exact Hall].
    intros e ->. apply strict_equal_refl. }
  rewrite Hok. reflexivity.
Qed.

(** Registering a path throws as soon as a rule with another path is
    registered. *)
Lemma registerAuthRule_other_path p r m :
  List.Exists (fun e => strict_equal (rulePath e) (storedPath p) = false)
    (_authRules m) ->
  registerAuthRule p r m
  = Throw "Attempting to register multiple rules for the same path".
Proof.
  intros Hex. unfold registerAuthRule. fold (storedPath p).
  rewrite (assertRulePaths_Throw _ _ Hex). reflexivity.
Qed.

(** A builtin rule with a string path is found before any user rule. *)
Lemma authRuleForRepo_builtin m inputPath :
  In (itemPathGetRepoId inputPath) builtinRepoIds ->
  authRuleForRepo m inputPath
  = firstRule
      (fun e => strict_equal (rulePath e)
                  (PathString (itemPathGetRepoId inputPath)))
      kBuiltinAuthRules /\
  authRuleForRepo m inputPath <> None.
Proof.
  intros Hin. unfold authRuleForRepo.
  destruct Hin as [<-|[<-|[<-|[]]]]; simpl; split;
    (reflexivity || discriminate).
Qed.

(** For every other repository id the builtin table yields nothing, the
    catch-all entry included: its path is a [RegExp], which is never
    [===] to a string, and it is not tested. The user rules decide. *)
Lemma authRuleForRepo_not_builtin m inputPath :
  ~ In (itemPathGetRepoId inputPath) builtinRepoIds ->
  authRuleForRepo m inputPath
  = firstRule (userMatches (itemPathGetRepoId inputPath) inputPath)
      (_authRules m).
Proof.
  intros Hnot. unfold authRuleForRepo, kBuiltinAuthRules.
  cbn [firstRule rulePath rule strict_equal].
  repeat match goal with
  | |- context [String.eqb ?a ?b] =>
      destruct (String.eqb_spec a b) as [Heq|_];
      [exfalso; apply Hnot; rewrite <- Heq; simpl; tauto|]
  end.
  reflexivity.
Qed.

End Matcher.

(** *** Runs on explicit inputs *)

Section Runs.
Import Samples.
#[local] Existing Instance sampleEnv.

(** C3, what the code does: on a fresh manager, registering a rule for
    [/data/notes] and then a second rule for the same path returns, and
    leaves two rules for that path; registering a rule for the distinct
    path [/data/tasks] after the first one throws the assertion error.
    The assertion of [registerAuthRule] is inverted. *)
Theorem registerAuthRule_duplicate_accepted :
  exists m1 m2,
    registerAuthRule (PathString "/data/notes") allowAll fresh = Return m1 /\
    registerAuthRule (PathString "/data/notes") denyAll m1 = Return m2 /\
    _authRules m2
    = [ {| rulePath := PathString "/data/notes"; rule := allowAll |};
        {| rulePath := PathString "/data/notes"; rule := denyAll |} ] /\
    registerAuthRule (PathString "/data/tasks") denyAll m1
    = Throw "Attempting to register multiple rules for the same path".
Proof.
  eexists. eexists.
  split; [reflexivity|]. split; [reflexivity|].
  split; reflexivity.
Qed.

(** C1, what the code does: the catch-all pattern matches the path
    [/sys/secrets/item1], whose repository id is none of the three with a
    rule of their own, yet on a fresh manager no rule is returned for it,
    and once a user rule is registered for [/sys/secrets] that rule is
    returned and grants a write to a session that [root] does not own. *)
Theorem authRuleForRepo_sys_catch_all_skipped :
  itemPathGetRepoId "/sys/secrets/item1" = "/sys/secrets"%string /\
  re_test kSysRegExp "/sys/secrets/item1" = true /\
  authRuleForRepo fresh "/sys/secrets/item1" = None /\
  exists m1 r,
    registerAuthRule (PathString "/sys/secrets") allowAll fresh = Return m1 /\
    authRuleForRepo m1 "/sys/secrets/item1" = Some r /\
    r tt "/sys/secrets"%string "item1"%string {| owner := "mallory" |} write
    = true.
Proof.
  split; [reflexivity|]. split; [reflexivity|]. split; [reflexivity|].
  eexists. eexists.
  split; [reflexivity|]. split; reflexivity.
Qed.

(** The three builtin rules with a string path are found first, also when
    a user rule is registered for the same repository. *)
Example authRuleForRepo_builtin_first :
  exists m1 r,
    registerAuthRule (PathString "/sys/stats") allowAll fresh = Return m1 /\
    authRuleForRepo m1 "/sys/stats/cpu" = Some r /\
    r tt "/sys/stats"%string "cpu"%string {| owner := "mallory" |} read
    = false /\
    r tt "/sys/stats"%string "cpu"%string {| owner := "root" |} write = true.
Proof.
  eexists. eexists.
  split; [reflexivity|]. split; [reflexivity|]. split; reflexivity.
Qed.

(** The rule of [/sys/users] on the sessions of the specification. *)
Example sys_users_rule :
  exists r,
    authRuleForRepo fresh "/sys/users/bob" = Some r /\
    r tt "/sys/users"%string "bob"%string {| owner := "alice" |} read
    = true /\
    r tt "/sys/users"%string "bob"%string {| owner := "alice" |} write
    = false /\
    r tt "/sys/users"%string "alice"%string {| owner := "alice" |} write
    = true /\
    r tt "/sys/users"%string "bob"%string {| owner := "root" |} write
    = true.
Proof. eexists. repeat split; reflexivity. Qed.

End Runs.
End AuthFacts.

(** ** The sync message *)

Module SyncFacts.
Import JS Sync.

Section Messages.
Context `{SyncEnv}.

(** *** Building a message *)

(** The scan adds every id to the filter, counts every pair, and keeps,
    in order, the values whose id the peer filter does not have. *)
Lemma scan_fold pf vals st :
  fold_left (scanStep pf) vals st
  = {| localFilter := fold_left bf_add (List.map fst vals) (localFilter st);
       localSize := localSize st + Z.of_nat (length vals);
       missingPeerValues :=
         missingPeerValues st ++
         List.map snd
           (List.filter (fun e => negb (bf_has pf (fst e))) vals) |}.
Proof.
  revert st. induction vals as [|[id v] vals IH]; intros st.
  - simpl. rewrite Z.add_0_r, List.app_nil_r. destruct st; reflexivity.
  - cbn [fold_left]. rewrite IH. cbn [scanStep localFilter localSize
      missingPeerValues List.map fst List.filter length].
    f_equal; [lia|].
    destruct (negb (bf_has pf id)); cbn [List.map snd];
      [rewrite <- List.app_assoc|]; reflexivity.
Qed.

Lemma buildAsync_build pf vals L P C org reg inc low :
  buildAsync pf vals L P C org reg inc low
  = build pf vals L P C org reg inc low.
Proof. reflexivity. Qed.

(** C5: with a peer filter and [includeMissing] true, the message that
    [build] emits carries the fresh filter with the id of every pair of
    the iterator added in order, the values, in iterator order, of exactly
    the pairs whose id the peer filter does not have, the number of pairs
    of the iterator as its size, and the given [orgId]. *)
Theorem build_with_peer_filter pf vals L P C org reg low :
  filter (build (Some pf) vals L P C org reg true low)
  = fold_left bf_add (List.map fst vals)
      (bf_new (numberOfEntries L P)
         (computeFpr (numberOfEntries L P) C low)) /\
  values (build (Some pf) vals L P C org reg true low)
  = List.map snd (List.filter (fun e => negb (bf_has pf (fst e))) vals) /\
  size (build (Some pf) vals L P C org reg true low)
  = Z.of_nat (length vals) /\
  orgId (build (Some pf) vals L P C org reg true low) = org.
Proof.
  unfold build, emit, newSyncMessage, filter, values, size.
  rewrite scan_fold. cbn. repeat split.
Qed.

(** Without a peer filter, or with [includeMissing] false, nothing is
    scanned: the message carries the fresh filter as constructed, no
    value, and the size that the caller passed. *)
Lemma build_without_scan pf vals L P C org reg inc low :
  pf = None \/ inc = false ->
  filter (build pf vals L P C org reg inc low)
  = bf_new (numberOfEntries L P) (computeFpr (numberOfEntries L P) C low) /\
  values (build pf vals L P C org reg inc low) = [] /\
  size (build pf vals L P C org reg inc low) = L.
Proof.
  intros Hcase. unfold build, emit, newSyncMessage, filter, values, size.
  destruct pf as [pf|]; [|repeat split].
  destruct inc; [|repeat split].
  destruct Hcase; discriminate.
Qed.

(** The filter of every message is the fresh filter with the ids of the
    scanned pairs added. *)
Lemma build_filter pf vals L P C org reg inc low :
  filter (build pf vals L P C org reg inc low)
  = fold_left bf_add (List.map fst (scanned pf inc vals))
      (bf_new (numberOfEntries L P)
         (computeFpr (numberOfEntries L P) C low)).
Proof.
  unfold build, emit, newSyncMessage, filter, scanned.
  destruct pf as [pf|]; [|reflexivity].
  destruct inc; [|reflexivity].
  rewrite scan_fold. reflexivity.
Qed.

(** *** Decoding a message *)

Lemma deserializeCommits_spec org reg pre rest acc :
  deserializeCommits org reg (pre ++ rest)
    (seq (length pre) (length rest)) acc
  = acc ++ decodedCommits org reg rest.
Proof.
  revert pre acc. induction rest as [|d rest IH]; intros pre acc.
  - simpl. rewrite List.app_nil_r. reflexivity.
  - cbn [length seq deserializeCommits].
    rewrite list_lookup_middle by reflexivity.
    replace (pre ++ d :: rest) with ((pre ++ [d]) ++ rest)
      by (rewrite <- List.app_assoc; reflexivity).
    replace (S (length pre)) with (length (pre ++ [d]))
      by (rewrite List.length_app; simpl; lia).
    rewrite IH. unfold decodedCommits. cbn [flat_map].
    destruct (Commit_fromJS org d reg); cbn [List.app];
      [rewrite <- List.app_assoc|]; reflexivity.
Qed.

(** The synchronous path: commits that fail to decode are skipped and the
    others are kept in order; the filter is rebuilt from the key ["f"]; a
    missing key ["c"] gives no values and a missing key ["ad"] gives an
    empty denial list. *)
Lemma deserialize_tolerant org reg current e :
  values (deserialize org reg current e)
  = decodedCommits org reg (default [] (enc_c e)) /\
  filter (deserialize org reg current e)
  = bf_deserialize (default (bf_new 1 num_half) current) (enc_f e) /\
  (enc_c e = None -> values (deserialize org reg current e) = []) /\
  (enc_ad e = None -> accessDenied (deserialize org reg current e) = []).
Proof.
  unfold deserialize, values, filter, accessDenied. cbn.
  pose proof (deserializeCommits_spec org reg [] (default [] (enc_c e)) [])
    as Hloop.
  cbn in Hloop. rewrite Hloop.
  repeat split; intros ->; reflexivity.
Qed.

Lemma scheduler_map_spec org reg pre rest :
  scheduler_map
    (fun (_ : CommitDecoder) idx =>
       match (pre ++ rest) !! idx with
       | Some d => Commit_fromJS org d reg
       | None => Throw EmptyString
       end) (length pre) rest
  = fold_right
      (fun d acc =>
         bind (Commit_fromJS org d reg) (fun c =>
         bind acc (fun cs => Return (c :: cs))))
      (Return []) rest.
Proof.
  revert pre. induction rest as [|d rest IH]; intros pre; [reflexivity|].
  cbn [scheduler_map fold_right].
  rewrite list_lookup_middle by reflexivity.
  replace (pre ++ d :: rest) with ((pre ++ [d]) ++ rest)
    by (rewrite <- List.app_assoc; reflexivity).
  replace (S (length pre)) with (length (pre ++ [d]))
    by (rewrite List.length_app; simpl; lia).
  rewrite IH. reflexivity.
Qed.

(** The streaming path returns every commit when all of them decode. *)
Lemma decodeAsync_all_decode cfg reg commits cs :
  enc_c (decoder cfg) = Some commits ->
  List.Forall2 (fun d c => Commit_fromJS (dec_orgId cfg) d reg = Return c)
    commits cs ->
  exists msg, decodeAsync cfg reg = Return msg /\ values msg = cs.
Proof.
  intros Hc Hall. unfold decodeAsync. rewrite Hc.
  pose proof (scheduler_map_spec (dec_orgId cfg) reg [] commits) as Hmap.
  cbn [List.app length] in Hmap. rewrite Hmap. clear Hmap.
  assert (Hfold : fold_right
            (fun d acc =>
               bind (Commit_fromJS (dec_orgId cfg) d reg) (fun c =>
               bind acc (fun cs => Return (c :: cs))))
            (Return []) commits = Return cs).
  { clear Hc. induction Hall as [|d c commits' cs' Hd _ IH]; [reflexivity|].
    cbn [fold_right]. rewrite Hd, IH. reflexivity. }
  rewrite Hfold. cbn. eexists. split; reflexivity.
Qed.

(** The streaming path throws when some commit fails to decode: nothing
    between the scheduler and [Commit.fromJS] catches the error. *)
Lemma decodeAsync_throws cfg reg commits :
  enc_c (decoder cfg) = Some commits ->
  List.Exists (fun d => exists msg,
                 Commit_fromJS (dec_orgId cfg) d reg = Throw msg) commits ->
  exists msg, decodeAsync cfg reg = Throw msg.
Proof.
  intros Hc Hex. unfold decodeAsync. rewrite Hc.
  pose proof (scheduler_map_spec (dec_orgId cfg) reg [] commits) as Hmap.
  cbn [List.app length] in Hmap. rewrite Hmap. clear Hmap.
  assert (Hfold : exists msg, fold_right
            (fun d acc =>
               bind (Commit_fromJS (dec_orgId cfg) d reg) (fun c =>
               bind acc (fun cs => Return (c :: cs))))
            (Return []) commits = Throw msg).
  { clear Hc.
    induction Hex as [d commits' [msg Hd] | d commits' _ [msg IH]];
      cbn [fold_right].
    - rewrite Hd. eexists. reflexivity.
    - rewrite IH. destruct (Commit_fromJS _ d reg); eexists; reflexivity. }
  destruct Hfold as [msg ->]. eexists. reflexivity.
Qed.

End Messages.

(** *** Runs on explicit inputs *)

Section Runs.
Import Samples.
#[local] Existing Instance realNumbers.
#[local] Existing Instance sampleSyncEnv.

(** C2, what the code does: on first contact (no peer filter), and also
    with a peer filter when [includeMissing] is false, [build] does not
    scan the iterator: the filter of the message holds none of the ids
    that the iterator yields. The values are empty, as the claim says. *)
Theorem build_without_peer_filter_skips_scan :
  let vals := [("a", "commit-a"); ("b", "commit-b")]%string in
  let peer := bf_add (bf_new 2 0.5%R) "a" in
  let first := build None vals 2 0 3%R "org" tt true false in
  let filterOnly := build (Some peer) vals 2 2 3%R "org" tt false false in
  let full := build (Some peer) vals 2 2 3%R "org" tt true false in
  (ef_ids (filter first) = [] /\ bf_has (filter first) "a" = false /\
   values first = []) /\
  (ef_ids (filter filterOnly) = [] /\ bf_has (filter filterOnly) "b" = false /\
   values filterOnly = []) /\
  (ef_ids (filter full) = ["b"; "a"]%string /\
   values full = ["commit-b"]%string /\ size full = 2).
Proof. cbv zeta. repeat split; reflexivity. Qed.

(** C6, what the code does: on a message whose second commit fails to
    decode, the synchronous [deserialize] (run by the constructor) skips
    it and keeps the two others, while the streaming [decodeAsync]
    throws: it has no [catch] around [Commit.fromJS]. *)
Theorem decodeAsync_corrupted_commit_throws :
  values (newSyncMessage (inl corrupted) tt)
  = ["commit-a"; "commit-c"]%string /\
  accessDenied (newSyncMessage (inl corrupted) tt) = [] /\
  decodeAsync corrupted tt = Throw "corrupted commit".
Proof. repeat split; reflexivity. Qed.

(** Without a corrupted commit both paths decode the same message. *)
Example decodeAsync_sound_message :
  let e := {| enc_ver := Some 1;
              enc_f := ["a"]%string;
              enc_s := 1;
              enc_c := Some [Some "commit-a"]%string;
              enc_ad := Some ["x"]%string |} in
  let cfg := {| dec_orgId := "org"; decoder := e |} in
  decodeAsync cfg tt = Return (newSyncMessage (inl cfg) tt).
Proof. reflexivity. Qed.

End Runs.
End SyncFacts.

(** ** Further properties of the schema registry *)

Module RegistryProps.
Import JS JSFacts SchemaMgr SchemaMgrFacts.

Section Props.
Context `{Env}.

Lemma manager_eta m :
  {| _schemas := _schemas m; _authRules := _authRules m |} = m.
Proof. destruct m; reflexivity. Qed.

Lemma hasVersion_findVersion m n v :
  hasVersion m n v ->
  exists s, findVersion (Some v) (schemasOf m n) = Some s.
Proof.
  intros (s & Hin & Hv).
  destruct (findVersion (Some v) (schemasOf m n)) as [s'|] eqn:Hf; eauto.
  exfalso. eapply findVersion_None in Hf; eauto.
Qed.

(** The array of each namespace after a registration. *)
Lemma schemasOf_registerSchema schema m m' n :
  registerSchema schema m = Return m' -> ns schema = Some n ->
  schemasOf m' n
  = match findVersion (Some (version schema)) (schemasOf m n) with
    | None => sort (schemasOf m n ++ [schema])
    | Some _ => schemasOf m n
    end /\
  forall n', n' <> n -> schemasOf m' n' = schemasOf m n'.
Proof.
  intros Hreg Hns.
  apply registerSchema_Return in Hreg as (n0 & Hns0 & _ & Hsch).
  assert (n0 = n) as -> by congruence.
  unfold schemasOf at 1. rewrite Hsch, lookup_insert_eq. split; [reflexivity|].
  intros n' Hne. unfold schemasOf. rewrite Hsch.
  rewrite lookup_insert_ne by congruence. reflexivity.
Qed.

Lemma registerSchema_known schema m n :
  ns schema = Some n -> hasVersion m n (version schema) ->
  registerSchema schema m = Return m.
Proof.
  intros Hns Hhas.
  destruct (hasVersion_findVersion m n _ Hhas) as [s0 Hf].
  destruct Hhas as (s1 & Hin & _).
  pose proof (schemasOf_lookup m n s1 Hin) as Hlk.
  unfold registerSchema, is_null_ns. rewrite Hns. cbn [negb assert bind].
  fold (schemasOf m n). rewrite Hf, (insert_id _ _ _ Hlk), manager_eta.
  reflexivity.
Qed.

Lemma registerSchema_hasVersion schema m m' n :
  registerSchema schema m = Return m' -> ns schema = Some n ->
  hasVersion m' n (version schema).
Proof.
  intros Hreg Hns.
  destruct (schemasOf_registerSchema schema m m' n Hreg Hns) as [Harr _].
  destruct (findVersion _ _) as [s0|] eqn:Hf.
  - apply findVersion_Some in Hf as [Hin [= Hv]].
    exists s0. rewrite Harr. auto.
  - exists schema. split; [|reflexivity]. rewrite Harr.
    apply (Permutation_in _ (Permutation_sym (sort_perm _))).
    apply List.in_app_iff. right. left. reflexivity.
Qed.

(** X1: registering a schema a second time changes nothing, and neither
    does registering any other schema object of the same namespace and
    version afterwards: the first registration of a (namespace, version)
    pair wins. *)
Theorem registerSchema_idempotent schema m m1 :
  registerSchema schema m = Return m1 ->
  registerSchema schema m1 = Return m1 /\
  forall other,
    ns other = ns schema -> version other = version schema ->
    registerSchema other m1 = Return m1.
Proof.
  intros Hreg.
  pose proof (registerSchema_Return schema m m1 Hreg) as (n & Hns & _).
  pose proof (registerSchema_hasVersion schema m m1 n Hreg Hns) as Hhas.
  split.
  - apply registerSchema_known with (n := n); assumption.
  - intros other Hons Hov.
    apply registerSchema_known with (n := n); [congruence|].
    rewrite Hov. exact Hhas.
Qed.

Lemma get_as_findVersion m n v :
  v <> 0 -> get m n (Some v) = findVersion (Some v) (schemasOf m n).
Proof.
  intros Hv. unfold get, schemasOf.
  destruct (_schemas m !! n); simpl;
    destruct (Z.eqb_spec v 0); try contradiction; reflexivity.
Qed.

(** X2: after a schema with a new, non-zero version is registered,
    [get] with its namespace and version returns that very schema. *)
Theorem registerSchema_then_get schema m m' n :
  reachable m ->
  registerSchema schema m = Return m' ->
  ns schema = Some n ->
  version schema <> 0 ->
  ~ hasVersion m n (version schema) ->
  get m' n (Some (version schema)) = Some schema.
Proof.
  intros Hreach Hreg Hns Hv Hnew.
  assert (Hwf : wf m')
    by (eapply reachable_wf, reachable_registerSchema; eauto).
  destruct (schemasOf_registerSchema schema m m' n Hreg Hns) as [Harr _].
  apply get_registered; [assumption | | assumption].
  rewrite Harr.
  destruct (findVersion _ _) as [s0|] eqn:Hf.
  - exfalso. apply Hnew. apply findVersion_Some in Hf as [Hin [= Hs0]].
    exists s0. auto.
  - apply (Permutation_in _ (Permutation_sym (sort_perm _))).
    apply List.in_app_iff. right. left. reflexivity.
Qed.

Lemma findVersion_perm v l l' :
  Permutation l l' -> List.NoDup (List.map version l') ->
  findVersion (Some v) l = findVersion (Some v) l'.
Proof.
  intros Hperm Hnd.
  destruct (findVersion (Some v) l) as [s|] eqn:Hf.
  - apply findVersion_Some in Hf as [Hin [= ->]].
    symmetry. apply findVersion_unique; [assumption|].
    eapply Permutation_in; eauto.
  - symmetry. apply findVersion_None. intros s Hin.
    eapply findVersion_None in Hf; [exact Hf|].
    eapply Permutation_in; [apply Permutation_sym|]; eauto.
Qed.

Lemma findVersion_snoc v l s :
  version s <> v ->
  findVersion (Some v) (l ++ [s]) = findVersion (Some v) l.
Proof.
  intros Hs. unfold findVersion.
  induction l as [|y l IH]; simpl.
  - destruct (Z.eqb_spec (version s) v); [contradiction | reflexivity].
  - destruct (version y =? v); [reflexivity | exact IH].
Qed.

(** X3: a registration leaves every other lookup as it was: [get] with
    another namespace returns what it returned before, whatever the
    version asked for and also when none is given; and [get] with any
    namespace and another non-zero version returns what it returned
    before. *)
Theorem registerSchema_frame schema m m' n :
  reachable m ->
  registerSchema schema m = Return m' ->
  (ns schema <> Some n -> forall v, get m' n v = get m n v) /\
  (forall v, v <> 0 -> v <> version schema ->
     get m' n (Some v) = get m n (Some v)).
Proof.
  intros Hreach Hreg.
  assert (Hwf : wf m')
    by (eapply reachable_wf, reachable_registerSchema; eauto).
  pose proof (registerSchema_Return schema m m' Hreg)
    as (n0 & Hns & _ & Hsch).
  destruct (schemasOf_registerSchema schema m m' n0 Hreg Hns)
    as [Harr Hrest].
  assert (Hframe : n <> n0 -> forall v, get m' n v = get m n v).
  { intros Hne v. unfold get. rewrite Hsch.
    rewrite lookup_insert_ne by congruence. reflexivity. }
  split; [intros Hother; apply Hframe; congruence|].
  intros v Hv Hv'.
  destruct (decide (n = n0)) as [->|Hne]; [|apply Hframe, Hne].
  rewrite !get_as_findVersion by assumption.
  rewrite Harr.
  destruct (findVersion (Some (version schema)) (schemasOf m n0))
    as [s0|] eqn:Hf; [reflexivity|].
  assert (Hin : In schema (schemasOf m' n0)).
  { rewrite Harr.
    apply (Permutation_in _ (Permutation_sym (sort_perm _))).
    apply List.in_app_iff. right. left. reflexivity. }
  pose proof (schemasOf_lookup m' n0 schema Hin) as Hlk.
  apply Hwf in Hlk as (_ & Hnd & _). rewrite Harr in Hnd.
  rewrite (findVersion_perm v _ _ (sort_perm _)).
  - apply findVersion_snoc. congruence.
  - eapply Permutation_NoDup; [apply Permutation_map, sort_perm|].
    exact Hnd.
Qed.

Lemma descending_strict arr :
  descending arr -> List.NoDup (List.map version arr) ->
  StronglySorted (fun a b => version b < version a) arr.
Proof.
  unfold descending. induction 1 as [|a arr Hs IH Ha]; intros Hnd;
    [constructor|].
  simpl in Hnd. apply List.NoDup_cons_iff in Hnd as [Hnot Hnd].
  constructor; [auto|].
  rewrite List.Forall_forall in *. intros b Hb.
  specialize (Ha b Hb).
  assert (version b <> version a);
    [intros Heq; apply Hnot; rewrite <- Heq; apply List.in_map, Hb | lia].
Qed.

(** X4: in every manager that the constructor and registrations build,
    the array of a namespace is not empty, holds schemas of that namespace
    only, and is sorted by strictly descending version (so no version
    occurs twice). *)
Theorem registry_strictly_sorted m n arr :
  reachable m ->
  _schemas m !! n = Some arr ->
  arr <> [] /\
  List.Forall (fun s => ns s = Some n) arr /\
  StronglySorted (fun a b => version b < version a) arr.
Proof.
  intros Hreach Hn. apply reachable_wf in Hreach.
  destruct (Hreach n arr Hn) as (Hne & Hnd & Hdesc & Hall).
  auto using descending_strict.
Qed.

(** X5: registering a schema whose version is above every version of its
    namespace makes it the latest: [get] without a version returns it. *)
Theorem registerSchema_latest schema m m' n :
  reachable m ->
  registerSchema schema m = Return m' ->
  ns schema = Some n ->
  (forall s, In s (schemasOf m n) -> version s < version schema) ->
  get m' n None = Some schema.
Proof.
  intros Hreach Hreg Hns Habove.
  assert (Hwf : wf m')
    by (eapply reachable_wf, reachable_registerSchema; eauto).
  destruct (schemasOf_registerSchema schema m m' n Hreg Hns) as [Harr _].
  assert (Hf : findVersion (Some (version schema)) (schemasOf m n) = None).
  { apply findVersion_None. intros s Hin. specialize (Habove s Hin). lia. }
  rewrite Hf in Harr.
  assert (Hin : In schema (schemasOf m' n)).
  { rewrite Harr.
    apply (Permutation_in _ (Permutation_sym (sort_perm _))).
    apply List.in_app_iff. right. left. reflexivity. }
  pose proof (schemasOf_lookup m' n schema Hin) as Hlk.
  pose proof (Hwf _ _ Hlk) as (_ & _ & Hdesc & _).
  unfold get. rewrite Hlk. simpl.
  destruct (schemasOf m' n) as [|h arr] eqn:Harr'; [destruct Hin|].
  simpl. f_equal.
  destruct Hin as [Heq|Hin]; [assumption|].
  exfalso.
  inversion Hdesc as [|? ? _ Hall]; subst.
  rewrite List.Forall_forall in Hall. specialize (Hall schema Hin).
  assert (Hh : In h (schemasOf m n ++ [schema])).
  { apply (Permutation_in _ (sort_perm _)). rewrite <- Harr. left.
    reflexivity. }
  apply List.in_app_iff in Hh as [Hh|[Hh|[]]].
  - specialize (Habove h Hh). lia.
  - subst h. inversion Hdesc as [|? ? Hs' _]; subst.
    pose proof (Hwf _ _ Hlk) as (_ & Hnd & _).
    simpl in Hnd. apply List.NoDup_cons_iff in Hnd as [Hnot _].
    apply Hnot, List.in_map, Hin.
Qed.

Lemma get_In m n v s : get m n v = Some s -> In s (schemasOf m n).
Proof.
  unfold get, schemasOf. destruct (_schemas m !! n) as [arr|]; [|discriminate].
  simpl. destruct (truthy_number v).
  - intros Hf. apply findVersion_Some in Hf. tauto.
  - destruct arr; simpl; [discriminate|]. intros [= ->]. left. reflexivity.
Qed.

(** X6: what [get] returns is a schema that was registered, of the
    namespace asked for, and of the version asked for when that version
    is a non-zero number. *)
Theorem get_sound m n v s :
  reachable m ->
  get m n v = Some s ->
  registered m s /\ ns s = Some n /\
  forall k, v = Some k -> k <> 0 -> version s = k.
Proof.
  intros Hreach Hget. apply reachable_wf in Hreach.
  pose proof (get_In m n v s Hget) as Hin.
  pose proof (registered_ns m n s Hreach Hin) as Hns.
  split; [exists n; auto|]. split; [assumption|].
  intros k -> Hk. apply (get_version m n k s Hk Hget).
Qed.

(** X28: a registration never drops or replaces a schema: every schema
    of every namespace is still in that namespace's array afterwards. *)
Theorem registerSchema_keeps schema m m' n s :
  registerSchema schema m = Return m' ->
  In s (schemasOf m n) ->
  In s (schemasOf m' n).
Proof.
  intros Hreg Hin.
  pose proof (registerSchema_Return schema m m' Hreg) as (n0 & Hns & _).
  destruct (schemasOf_registerSchema schema m m' n0 Hreg Hns)
    as [Harr Hrest].
  destruct (decide (n = n0)) as [->|Hne]; [|rewrite Hrest; assumption].
  rewrite Harr. destruct (findVersion _ _); [assumption|].
  apply (Permutation_in _ (Permutation_sym (sort_perm _))).
  apply List.in_app_iff. left. exact Hin.
Qed.

(** *** Upgrades *)

(** X7: the assertion of [upgrade] is dead code: for every data schema
    and optional target schema either the first test returns or the
    asserted condition holds, so no call of [upgrade] ends in the throw
    of the assertion. A registered upgrade function and the clone are
    total functions here; an exception of theirs is not modelled. *)
Theorem upgrade_assertion_never_fails m d dataSchema targetSchema :
  let target_null :=
    match targetSchema with
    | None => true
    | Some t => is_null_ns t
    end in
  (target_null && is_null_ns dataSchema)
  || (negb (is_null_ns dataSchema) || negb target_null) = true /\
  forall msg, upgrade m d dataSchema targetSchema <> Throw msg.
Proof.
  cbv zeta. split.
  - destruct targetSchema as [t|]; [destruct (is_null_ns t)|];
      destruct (is_null_ns dataSchema); reflexivity.
  - intros msg. unfold upgrade.
    destruct targetSchema as [t|]; [destruct (is_null_ns t)|];
      destruct (is_null_ns dataSchema); cbn [andb orb negb assert bind];
      try discriminate;
      (destruct (get_nullable _ _ _) as [latest|];
       [destruct (version latest =? version dataSchema)|]; discriminate).
Qed.

Lemma upgradeLoop_Some m n count i cur d d' s' :
  0 < i ->
  upgradeLoop m (Some n) count i cur d = Some (d', s') ->
  (forall j, i <= j < i + Z.of_nat count -> hasVersion m n j) /\
  (count = O -> s' = cur) /\
  (count <> O ->
   version s' = i + Z.of_nat count - 1 /\ In s' (schemasOf m n)).
Proof.
  revert i cur d. induction count as [|count IH]; intros i cur d Hi Hloop.
  - cbn [upgradeLoop] in Hloop. injection Hloop as _ <-.
    split; [intros j Hj; lia|]. split; [reflexivity | congruence].
  - cbn [upgradeLoop get_nullable] in Hloop.
    destruct (get m n (Some i)) as [schema|] eqn:Hget; [|discriminate].
    apply get_version in Hget as [Hv Hin]; [|lia].
    apply IH in Hloop as (Hrange & Hzero & Hlast); [|lia].
    split; [|split; [discriminate|]].
    + intros j Hj. destruct (Z.eq_dec j i) as [->|Hne].
      * exists schema. auto.
      * apply Hrange. lia.
    + intros _. destruct count as [|count].
      * rewrite (Hzero eq_refl). split; [simpl; lia | assumption].
      * destruct Hlast as [Hs Hin']; [discriminate|]. split; [lia | auto].
Qed.

(** X8: when [upgrade] returns a result for data that is behind the
    version aimed at, the schema it returns is a registered one of that
    version, and every version from [fromSchema.version + 1] up to it is
    registered: an upgrade never skips a version. *)
Theorem upgrade_success_dense m d fromSchema targetSchema n vt d' s' :
  ns fromSchema = Some n ->
  aimsAt m n targetSchema vt ->
  0 <= version fromSchema < vt ->
  upgrade m d fromSchema targetSchema = Return (Some (d', s')) ->
  version s' = vt /\ In s' (schemasOf m n) /\
  forall i, version fromSchema < i <= vt -> hasVersion m n i.
Proof.
  intros Hns Haim Hv Hup.
  destruct (aimsAt_get m n targetSchema vt Haim ltac:(lia))
    as (Hn & latest & Hlatest & Hvt).
  unfold upgrade, is_null_ns in Hup.
  rewrite Hns, andb_false_r in Hup. cbn [negb orb assert bind] in Hup.
  rewrite Hn in Hup. cbn [get_nullable] in Hup. rewrite Hlatest in Hup.
  destruct (Z.eqb_spec (version latest) (version fromSchema)); [lia|].
  injection Hup as Hloop.
  apply upgradeLoop_Some in Hloop as (Hrange & _ & Hlast); [|lia].
  destruct Hlast as [Hs Hin]; [lia|].
  split; [lia|]. split; [assumption|].
  intros i Hi. apply Hrange. lia.
Qed.

(** X9: data that is not behind the version aimed at is never changed by
    an upgrade function: at that version [upgrade] returns the data
    itself, above it a clone of the data, both with the schema of the
    data. *)
Theorem upgrade_not_behind m d fromSchema targetSchema n vt :
  ns fromSchema = Some n ->
  aimsAt m n targetSchema vt ->
  vt <> 0 ->
  vt <= version fromSchema ->
  upgrade m d fromSchema targetSchema
  = Return (Some (if vt =? version fromSchema then d
                  else coreValueClone d, fromSchema)).
Proof.
  intros Hns Haim Hvt Hle.
  destruct (aimsAt_get m n targetSchema vt Haim Hvt)
    as (Hn & latest & Hlatest & Hv).
  unfold upgrade, is_null_ns.
  rewrite Hns, andb_false_r. cbn [negb orb assert bind].
  rewrite Hn. cbn [get_nullable]. rewrite Hlatest, Hv.
  destruct (Z.eqb_spec vt (version fromSchema)); [reflexivity|].
  replace (Z.to_nat (vt - version fromSchema)) with O by lia.
  reflexivity.
Qed.

(** X10: when the version of the target is not registered, or the target
    is omitted and nothing is registered for the namespace, [upgrade]
    returns the data and its schema as they were given. *)
Theorem upgrade_without_target m d fromSchema targetSchema n :
  ns fromSchema = Some n ->
  (forall t, targetSchema = Some t ->
     ns t = Some n /\ version t <> 0 /\ ~ hasVersion m n (version t)) ->
  (targetSchema = None -> schemasOf m n = []) ->
  upgrade m d fromSchema targetSchema = Return (Some (d, fromSchema)).
Proof.
  intros Hns Htarget Hnone.
  unfold upgrade, is_null_ns.
  rewrite Hns, andb_false_r. cbn [negb orb assert bind].
  destruct targetSchema as [t|]; cbn [from_option option_map].
  - destruct (Htarget t eq_refl) as (Hnt & Hvt & Hno).
    rewrite Hnt.
    assert (Hor : or_string (Some n) (Some n) = Some n)
      by (simpl; destruct (String.eqb n EmptyString); reflexivity).
    rewrite Hor. cbn [get_nullable].
    rewrite (get_unregistered m n _ Hvt Hno). reflexivity.
  - cbn [or_string get_nullable].
    specialize (Hnone eq_refl). unfold get, schemasOf in *.
    destruct (_schemas m !! n) as [arr|]; [|reflexivity].
    simpl in Hnone. subst arr. reflexivity.
Qed.

(** *** Markers *)

Lemma marker_split n v :
  has_char "/" n = false ->
  split "/" (n ++ "/" ++ number_to_string v) = [n; number_to_string v].
Proof.
  intros Hn.
  change ("/" ++ number_to_string v)%string
    with (String "/" (number_to_string v)).
  rewrite (split_app _ _ _ Hn).
  rewrite (split_no_sep _ _ (number_to_string_no_slash v)). reflexivity.
Qed.

Lemma number_to_string_inj v w :
  number_to_string v = number_to_string w -> v = w.
Proof.
  intros Heq. apply (f_equal parseInt) in Heq.
  rewrite !parseInt_number_to_string in Heq. congruence.
Qed.

(** X11: two schemas with the same marker have the same namespace and,
    unless that namespace is null, the same version, when no namespace
    holds a ["/"]: [encode] tells the (namespace, version) pairs apart. *)
Theorem encode_injective s1 s2 :
  (forall n, ns s1 = Some n -> has_char "/" n = false) ->
  (forall n, ns s2 = Some n -> has_char "/" n = false) ->
  encode s1 = encode s2 ->
  ns s1 = ns s2 /\ (ns s1 <> None -> version s1 = version s2).
Proof.
  intros H1 H2. unfold encode.
  destruct (ns s1) as [n1|] eqn:Hn1, (ns s2) as [n2|] eqn:Hn2; intros Heq.
  - apply (f_equal (split "/")) in Heq.
    rewrite !marker_split in Heq by auto.
    injection Heq as -> Hv. apply number_to_string_inj in Hv. auto.
  - exfalso. pose proof (marker_not_null n1 (version s1)) as Hne.
    rewrite Heq in Hne. discriminate.
  - exfalso. pose proof (marker_not_null n2 (version s2)) as Hne.
    rewrite <- Heq in Hne. discriminate.
  - split; [reflexivity | congruence].
Qed.

(** X12: [decode] returns only the null schema or a schema that was
    registered, whatever string it is given. *)
Theorem decode_sound m str s :
  reachable m ->
  decode m str = Some s ->
  s = kNullSchema \/ registered m s.
Proof.
  intros Hreach. apply reachable_wf in Hreach. unfold decode.
  destruct (String.eqb str "null"); [intros [= <-]; auto|].
  intros Hget. right. apply get_In in Hget.
  eexists. split; [|exact Hget]. eapply registered_ns; eauto.
Qed.

End Props.

(** *** Runs on explicit registries *)

Section Runs.
Import Samples.
#[local] Existing Instance sampleEnv.

Ltac reach := apply reachable_registry; repeat constructor; discriminate.

Ltac absent :=
  let s := fresh "s" in
  let Hin := fresh "Hin" in
  let Hv := fresh "Hv" in
  intros (s & Hin & Hv); vm_compute in Hin;
  repeat (destruct Hin as [Hin|Hin]; [subst s; discriminate Hv|]);
  exact Hin.

Lemma registerSchema_idempotent_witness :
  registerSchema (task 2) (registry [task 1])
  = Return (registry [task 1; task 2]) /\
  registerSchema (task 2) (registry [task 1; task 2])
  = Return (registry [task 1; task 2]).
Proof.
  assert (Hreg : registerSchema (task 2) (registry [task 1])
                 = Return (registry [task 1; task 2])) by reflexivity.
  split; [exact Hreg|].
  exact (proj1 (registerSchema_idempotent _ _ _ Hreg)).
Defined.

Lemma registerSchema_then_get_witness :
  reachable (registry [task 1]) /\
  registerSchema (task 2) (registry [task 1])
  = Return (registry [task 1; task 2]) /\
  ~ hasVersion (registry [task 1]) "Task" 2 /\
  get (registry [task 1; task 2]) "Task" (Some 2) = Some (task 2).
Proof.
  assert (Hreach : reachable (registry [task 1])) by reach.
  assert (Hreg : registerSchema (task 2) (registry [task 1])
                 = Return (registry [task 1; task 2])) by reflexivity.
  assert (Hno : ~ hasVersion (registry [task 1]) "Task" 2) by absent.
  repeat (split; [assumption|]).
  apply (registerSchema_then_get (task 2) (registry [task 1])
           (registry [task 1; task 2]) "Task"%string Hreach Hreg eq_refl);
    [discriminate | exact Hno].
Defined.

Lemma registerSchema_frame_witness :
  reachable (registry [task 1; drafts]) /\
  registerSchema (task 2) (registry [task 1; drafts])
  = Return (registry [task 1; drafts; task 2]) /\
  (get (registry [task 1; drafts; task 2]) "docs/drafts" None
   = get (registry [task 1; drafts]) "docs/drafts" None /\
   get (registry [task 1; drafts; task 2]) "docs/drafts" None
   = Some drafts) /\
  (get (registry [task 1; drafts; task 2]) "Task" (Some 1)
   = get (registry [task 1; drafts]) "Task" (Some 1) /\
   get (registry [task 1; drafts; task 2]) "Task" (Some 1)
   = Some (task 1)).
Proof.
  assert (Hreach : reachable (registry [task 1; drafts])) by reach.
  assert (Hreg : registerSchema (task 2) (registry [task 1; drafts])
                 = Return (registry [task 1; drafts; task 2]))
    by reflexivity.
  do 2 (split; [assumption|]).
  split; (split; [|reflexivity]).
  - apply (proj1 (registerSchema_frame (task 2) (registry [task 1; drafts])
                    (registry [task 1; drafts; task 2])
                    "docs/drafts"%string Hreach Hreg)).
    discriminate.
  - apply (proj2 (registerSchema_frame (task 2) (registry [task 1; drafts])
                    (registry [task 1; drafts; task 2])
                    "Task"%string Hreach Hreg));
      discriminate.
Defined.

Lemma registry_strictly_sorted_witness :
  reachable (registry [task 1; task 3; task 2]) /\
  _schemas (registry [task 1; task 3; task 2]) !! "Task"%string
  = Some [task 3; task 2; task 1] /\
  StronglySorted (fun a b => version b < version a)
    [task 3; task 2; task 1].
Proof.
  assert (Hreach : reachable (registry [task 1; task 3; task 2])) by reach.
  assert (Hn : _schemas (registry [task 1; task 3; task 2]) !! "Task"%string
               = Some [task 3; task 2; task 1]) by reflexivity.
  repeat (split; [assumption|]).
  exact (proj2 (proj2 (registry_strictly_sorted _ _ _ Hreach Hn))).
Defined.

Lemma registerSchema_latest_witness :
  reachable (registry [task 1]) /\
  registerSchema (task 2) (registry [task 1])
  = Return (registry [task 1; task 2]) /\
  get (registry [task 1; task 2]) "Task" None = Some (task 2).
Proof.
  assert (Hreach : reachable (registry [task 1])) by reach.
  assert (Hreg : registerSchema (task 2) (registry [task 1])
                 = Return (registry [task 1; task 2])) by reflexivity.
  repeat (split; [assumption|]).
  apply (registerSchema_latest (task 2) (registry [task 1])
           (registry [task 1; task 2]) "Task"%string Hreach Hreg eq_refl).
  intros s Hin. vm_compute in Hin. destruct Hin as [<-|[]].
  reflexivity.
Defined.

Lemma registerSchema_keeps_witness :
  registerSchema (task 2) (registry [task 1])
  = Return (registry [task 1; task 2]) /\
  In (task 1) (schemasOf (registry [task 1]) "Task") /\
  In (task 1) (schemasOf (registry [task 1; task 2]) "Task").
Proof.
  assert (Hreg : registerSchema (task 2) (registry [task 1])
                 = Return (registry [task 1; task 2])) by reflexivity.
  assert (Hin : In (task 1) (schemasOf (registry [task 1]) "Task"))
    by (left; reflexivity).
  repeat (split; [assumption|]).
  exact (registerSchema_keeps _ _ _ _ _ Hreg Hin).
Defined.

Lemma get_sound_witness :
  reachable (registry [task 1; task 2]) /\
  get (registry [task 1; task 2]) "Task" (Some 2) = Some (task 2) /\
  registered (registry [task 1; task 2]) (task 2).
Proof.
  assert (Hreach : reachable (registry [task 1; task 2])) by reach.
  assert (Hget : get (registry [task 1; task 2]) "Task" (Some 2)
                 = Some (task 2)) by reflexivity.
  repeat (split; [assumption|]).
  exact (proj1 (get_sound _ _ _ _ Hreach Hget)).
Defined.

Lemma upgrade_success_dense_witness :
  aimsAt (registry [task 1; task 2; task 3]) "Task" (Some (task 3)) 3 /\
  upgrade (registry [task 1; task 2; task 3]) [("title"%string, 7)]
    (task 1) (Some (task 3))
  = Return (Some ([("done"%string, 0); ("title"%string, 7);
                   ("from"%string, 1)], task 3)) /\
  forall i, 1 < i <= 3 ->
            hasVersion (registry [task 1; task 2; task 3]) "Task" i.
Proof.
  assert (Haim : aimsAt (registry [task 1; task 2; task 3]) "Task"
                   (Some (task 3)) 3).
  { split; [reflexivity|]. split; [|reflexivity].
    exists (task 3). split; [vm_compute; auto | reflexivity]. }
  assert (Hup : upgrade (registry [task 1; task 2; task 3])
                  [("title"%string, 7)] (task 1) (Some (task 3))
                = Return (Some ([("done"%string, 0); ("title"%string, 7);
                                 ("from"%string, 1)], task 3)))
    by reflexivity.
  repeat (split; [assumption|]).
  apply (upgrade_success_dense _ _ (task 1) _ "Task"%string 3 _ _
           eq_refl Haim ltac:(simpl; lia) Hup).
Defined.

Lemma upgrade_not_behind_witness :
  aimsAt (registry [task 1; task 2]) "Task" None 2 /\
  upgrade (registry [task 1; task 2]) [("title"%string, 7)] (task 3) None
  = Return (Some ([("title"%string, 7)], task 3)).
Proof.
  assert (Haim : aimsAt (registry [task 1; task 2]) "Task" None 2).
  { exists (task 2). split; reflexivity. }
  split; [exact Haim|].
  exact (upgrade_not_behind (registry [task 1; task 2])
           [("title"%string, 7)] (task 3) None "Task"%string 2
           eq_refl Haim ltac:(discriminate) ltac:(simpl; lia)).
Defined.

Lemma upgrade_without_target_witness :
  ~ hasVersion (registry [task 1]) "Task" 3 /\
  upgrade (registry [task 1]) [("title"%string, 7)] (task 1) (Some (task 3))
  = Return (Some ([("title"%string, 7)], task 1)).
Proof.
  assert (Hno : ~ hasVersion (registry [task 1]) "Task" 3) by absent.
  split; [exact Hno|].
  apply (upgrade_without_target (registry [task 1]) [("title"%string, 7)]
           (task 1) (Some (task 3)) "Task"%string eq_refl).
  - intros t [= <-]. split; [reflexivity|]. split; [discriminate|].
    exact Hno.
  - discriminate.
Defined.

Lemma encode_injective_witness :
  encode (task 1)
  = encode {| ns := Some "Task"%string; version := 1;
              schema_upgrade := Some (fun d _ => d) |} /\
  version (task 1) = 1.
Proof.
  split; [reflexivity|].
  refine (proj2 (encode_injective (task 1)
            {| ns := Some "Task"%string; version := 1;
               schema_upgrade := Some (fun d _ => d) |} _ _ eq_refl) _).
  - intros n [= <-]. reflexivity.
  - intros n [= <-]. reflexivity.
  - discriminate.
Defined.

Lemma decode_sound_witness :
  reachable (registry [task 1]) /\
  decode (registry [task 1]) "Task/1" = Some (task 1) /\
  (task 1 = kNullSchema \/ registered (registry [task 1]) (task 1)).
Proof.
  assert (Hreach : reachable (registry [task 1])) by reach.
  assert (Hdec : decode (registry [task 1]) "Task/1" = Some (task 1))
    by reflexivity.
  repeat (split; [assumption|]).
  exact (decode_sound _ _ _ Hreach Hdec).
Defined.

End Runs.
End RegistryProps.

(** ** Further properties of the authorization matcher *)

Module AuthProps.
Import JS SchemaMgr SchemaMgrFacts AuthFacts.

Section Props.
Context `{Env}.

(** X13: for the three repositories with a builtin rule of their own the
    matcher returns that rule whatever user rules are registered:
    [/sys/users] is open to [root], to the owner of the item and to
    reads; [/sys/sessions] to [root] and to reads; [/sys/stats] to [root]
    only. *)
Theorem builtin_rules_table m inputPath db repoPath itemKey session op :
  (itemPathGetRepoId inputPath = "/sys/users"%string ->
   exists r, authRuleForRepo m inputPath = Some r /\
     r db repoPath itemKey session op
     = (String.eqb (owner session) "root"
        || String.eqb (owner session) itemKey
        || match op with read => true | write => false end)) /\
  (itemPathGetRepoId inputPath = "/sys/sessions"%string ->
   exists r, authRuleForRepo m inputPath = Some r /\
     r db repoPath itemKey session op
     = (String.eqb (owner session) "root"
        || match op with read => true | write => false end)) /\
  (itemPathGetRepoId inputPath = "/sys/stats"%string ->
   exists r, authRuleForRepo m inputPath = Some r /\
     r db repoPath itemKey session op
     = String.eqb (owner session) "root").
Proof.
  repeat split; intros Heq; unfold authRuleForRepo, kBuiltinAuthRules;
    rewrite Heq; cbn [firstRule rulePath rule strict_equal];
    repeat match goal with
    | |- context [String.eqb ?a ?b] =>
        lazymatch a with
        | String _ _ =>
            lazymatch b with
            | String _ _ =>
                destruct (String.eqb_spec a b) as [Hab|Hab];
                [try discriminate Hab | try (exfalso; apply Hab; reflexivity)]
            end
        end
    end;
    eexists; (split; [reflexivity|]);
    cbn beta;
    repeat match goal with
    | |- context [String.eqb (owner session) ?x] =>
        destruct (String.eqb (owner session) x)
    end; reflexivity.
Qed.

Lemma firstRule_none matches rules :
  List.Forall (fun e => matches e = false) rules ->
  firstRule matches rules = None.
Proof.
  induction 1 as [|e rules He _ IH]; simpl; [reflexivity|].
  rewrite He. exact IH.
Qed.

Lemma firstRule_first matches pre e post :
  List.Forall (fun e' => matches e' = false) pre ->
  matches e = true ->
  firstRule matches (pre ++ e :: post) = Some (rule e).
Proof.
  induction 1 as [|e' pre He' _ IH]; intros He; simpl.
  - rewrite He. reflexivity.
  - rewrite He'. auto.
Qed.

(** X14: for a repository without a builtin rule of its own, the matcher
    returns the rule of the first user rule, in registration order, whose
    path matches (a string against the repository id, a pattern against
    the input path), and no rule when none matches. *)
Theorem user_rules_first_match m inputPath :
  ~ In (itemPathGetRepoId inputPath) builtinRepoIds ->
  (List.Forall
     (fun e => userMatches (itemPathGetRepoId inputPath) inputPath e = false)
     (_authRules m) ->
   authRuleForRepo m inputPath = None) /\
  (forall pre e post,
     _authRules m = pre ++ e :: post ->
     List.Forall
       (fun e' =>
          userMatches (itemPathGetRepoId inputPath) inputPath e' = false)
       pre ->
     userMatches (itemPathGetRepoId inputPath) inputPath e = true ->
     authRuleForRepo m inputPath = Some (rule e)).
Proof.
  intros Hnot. rewrite (authRuleForRepo_not_builtin m inputPath Hnot).
  split.
  - apply firstRule_none.
  - intros pre e post -> Hpre He. apply firstRule_first; assumption.
Qed.

(** X15: on a manager without user rules, registering a rule returns, and
    the rule is then the one found for every input path that its path
    matches and whose repository has no builtin rule of its own. *)
Theorem registerAuthRule_then_lookup p r m inputPath :
  _authRules m = [] ->
  ~ In (itemPathGetRepoId inputPath) builtinRepoIds ->
  userMatches (itemPathGetRepoId inputPath) inputPath
    {| rulePath := storedPath p; rule := r |} = true ->
  exists m',
    registerAuthRule p r m = Return m' /\
    authRuleForRepo m' inputPath = Some r.
Proof.
  intros Hempty Hnot Hmatch.
  rewrite (registerAuthRule_same_path p r m)
    by (rewrite Hempty; constructor).
  eexists. split; [reflexivity|].
  rewrite (authRuleForRepo_not_builtin _ inputPath Hnot).
  cbn [_authRules]. rewrite Hempty. cbn [List.app firstRule].
  rewrite Hmatch. reflexivity.
Qed.

Lemma strict_equal_sym p q : strict_equal p q = strict_equal q p.
Proof.
  destruct p, q; simpl; auto using String.eqb_sym, Nat.eqb_sym.
Qed.

Lemma strict_equal_trans p q t :
  strict_equal p q = true -> strict_equal q t = true ->
  strict_equal p t = true.
Proof.
  destruct p, q, t; simpl; try discriminate.
  - rewrite !String.eqb_eq. congruence.
  - rewrite !Nat.eqb_eq. congruence.
Qed.

Lemma registerSchema_authRules schema m m' :
  registerSchema schema m = Return m' -> _authRules m' = _authRules m.
Proof.
  intros Hreg. apply registerSchema_Return in Hreg as (n & _ & Hrules & _).
  exact Hrules.
Qed.

(** X16: in every manager that the constructor and registrations build,
    all user rules have one and the same path ([===]): the assertion of
    [registerAuthRule] lets no rule for a second path in. *)
Theorem reachable_rules_one_path m e1 e2 :
  reachable m ->
  In e1 (_authRules m) -> In e2 (_authRules m) ->
  strict_equal (rulePath e1) (rulePath e2) = true.
Proof.
  intros Hreach. revert e1 e2.
  induction Hreach as [m Hnew | m s m' _ IH Hreg | m p r m' _ IH Hreg];
    intros e1 e2 H1 H2.
  - unfold newSchemaManager in Hnew.
    apply bind_Return in Hnew as (m1 & Hm1 & Hnew).
    apply bind_Return in Hnew as (m2 & Hm2 & Hm3).
    apply registerSchema_authRules in Hm1, Hm2, Hm3.
    rewrite Hm3, Hm2, Hm1 in H1. destruct H1.
  - rewrite (registerSchema_authRules _ _ _ Hreg) in H1, H2. auto.
  - unfold registerAuthRule in Hreg. fold (storedPath p) in Hreg.
    destruct (assertRulePaths (_authRules m) (storedPath p)) as [[]|] eqn:Hok;
      [|discriminate].
    injection Hreg as <-. cbn [_authRules] in H1, H2.
    apply assertRulePaths_Return in Hok. rewrite List.Forall_forall in Hok.
    apply List.in_app_iff in H1 as [H1|[<-|[]]];
      apply List.in_app_iff in H2 as [H2|[<-|[]]]; cbn [rulePath].
    + auto.
    + auto.
    + rewrite strict_equal_sym. auto.
    + apply strict_equal_refl.
Qed.

Lemma upgradeLoop_ext m m' n count i cur d :
  _schemas m' = _schemas m ->
  upgradeLoop m' n count i cur d = upgradeLoop m n count i cur d.
Proof.
  intros Hs. revert i cur d.
  induction count as [|count IH]; intros i cur d; [reflexivity|].
  cbn [upgradeLoop]. unfold get_nullable, get. rewrite Hs.
  destruct n as [n|]; [|reflexivity].
  destruct (_schemas m !! n) as [arr|]; [|reflexivity].
  destruct (if truthy_number (Some i) then findVersion (Some i) arr
            else head arr); [apply IH | reflexivity].
Qed.

(** X17: the two tables of a manager are independent: registering a
    schema leaves the rule found for every path as it was, and
    registering a rule leaves [get], [decode] and [upgrade] as they
    were. *)
Theorem registrations_independent m m' :
  (forall schema inputPath,
     registerSchema schema m = Return m' ->
     authRuleForRepo m' inputPath = authRuleForRepo m inputPath) /\
  (forall p r,
     registerAuthRule p r m = Return m' ->
     (forall n v, get m' n v = get m n v) /\
     (forall str, decode m' str = decode m str) /\
     (forall d s t, upgrade m' d s t = upgrade m d s t)).
Proof.
  split.
  - intros schema inputPath Hreg. unfold authRuleForRepo.
    rewrite (registerSchema_authRules _ _ _ Hreg). reflexivity.
  - intros p r Hreg. apply registerAuthRule_schemas in Hreg.
    assert (Hget : forall n v, get m' n v = get m n v)
      by (intros; unfold get; rewrite Hreg; reflexivity).
    split; [exact Hget|]. split.
    + intros str. unfold decode. rewrite Hget. reflexivity.
    + intros d s t. unfold upgrade, get_nullable.
      destruct (_ && _); [reflexivity|].
      destruct (assert _ _); [|reflexivity]. cbn [bind].
      destruct (or_string _ _) as [n|]; [|reflexivity].
      rewrite Hget. destruct (get m n _) as [latest|]; [|reflexivity].
      destruct (_ =? _); [reflexivity|].
      f_equal. apply (upgradeLoop_ext m m' (Some n)). exact Hreg.
Qed.

End Props.

(** *** Runs on explicit inputs *)

Section Runs.
Import Samples.
#[local] Existing Instance sampleEnv.

Lemma builtin_rules_table_witness :
  itemPathGetRepoId "/sys/users/bob" = "/sys/users"%string /\
  exists r,
    authRuleForRepo fresh "/sys/users/bob" = Some r /\
    r tt "/sys/users"%string "bob"%string {| owner := "alice" |} write
    = false.
Proof.
  split; [reflexivity|].
  destruct (proj1 (builtin_rules_table fresh "/sys/users/bob" tt
                     "/sys/users" "bob" {| owner := "alice" |} write)
              eq_refl) as (r & Hr & Hv).
  exists r. split; [exact Hr|]. rewrite Hv. reflexivity.
Defined.

Lemma user_rules_first_match_witness :
  let m :=
    returned (registerAuthRule (PathString "/data/notes") denyAll
      (returned (registerAuthRule (PathString "/data/notes") allowAll
                   fresh))) in
  let first := {| rulePath := PathString "/data/notes"; rule := allowAll |} in
  let second := {| rulePath := PathString "/data/notes"; rule := denyAll |} in
  ~ In (itemPathGetRepoId "/data/notes/n1") builtinRepoIds /\
  authRuleForRepo fresh "/data/notes/n1" = None /\
  _authRules m = [] ++ first :: [second] /\
  userMatches (itemPathGetRepoId "/data/notes/n1") "/data/notes/n1" first
  = true /\
  authRuleForRepo m "/data/notes/n1" = Some allowAll /\
  authRuleForRepo m "/data/tasks/t1" = None.
Proof.
  intros m first second.
  assert (Hnot : ~ In (itemPathGetRepoId "/data/notes/n1") builtinRepoIds).
  { vm_compute. intros [Ha|[Ha|[Ha|[]]]]; discriminate Ha. }
  assert (Hnot' : ~ In (itemPathGetRepoId "/data/tasks/t1") builtinRepoIds).
  { vm_compute. intros [Ha|[Ha|[Ha|[]]]]; discriminate Ha. }
  assert (Hrules : _authRules m = [] ++ first :: [second]) by reflexivity.
  assert (Hmatch : userMatches (itemPathGetRepoId "/data/notes/n1")
                     "/data/notes/n1" first = true) by reflexivity.
  split; [exact Hnot|].
  split.
  { apply (proj1 (user_rules_first_match fresh "/data/notes/n1" Hnot)).
    constructor. }
  split; [exact Hrules|]. split; [exact Hmatch|].
  split.
  - exact (proj2 (user_rules_first_match m "/data/notes/n1" Hnot)
             [] first [second] Hrules (List.Forall_nil _) Hmatch).
  - apply (proj1 (user_rules_first_match m "/data/tasks/t1" Hnot')).
    repeat constructor.
Defined.

Lemma registerAuthRule_then_lookup_witness :
  _authRules fresh = [] /\
  ~ In (itemPathGetRepoId "/data/notes/n1") builtinRepoIds /\
  exists m',
    registerAuthRule (PathString "/data/notes") readOnly fresh = Return m' /\
    authRuleForRepo m' "/data/notes/n1" = Some readOnly.
Proof.
  assert (Hnot : ~ In (itemPathGetRepoId "/data/notes/n1") builtinRepoIds).
  { vm_compute. intros [Ha|[Ha|[Ha|[]]]]; discriminate Ha. }
  split; [reflexivity|]. split; [exact Hnot|].
  exact (registerAuthRule_then_lookup (PathString "/data/notes") readOnly
           fresh "/data/notes/n1" eq_refl Hnot eq_refl).
Defined.

(** The manager after two rules were registered for [/data/notes]. *)
Lemma reachable_rules_one_path_witness :
  exists m,
    reachable m /\
    _authRules m
    = [ {| rulePath := PathString "/data/notes"; rule := allowAll |};
        {| rulePath := PathString "/data/notes"; rule := denyAll |} ] /\
    strict_equal (PathString "/data/notes") (PathString "/data/notes")
    = true.
Proof.
  assert (Hfresh : reachable fresh) by (apply reachable_registry; constructor).
  eassert (Hm1 : reachable _).
  { eapply reachable_registerAuthRule with
      (p := PathString "/data/notes") (r := allowAll); [exact Hfresh|].
    reflexivity. }
  eassert (Hm2 : reachable _).
  { eapply reachable_registerAuthRule with
      (p := PathString "/data/notes") (r := denyAll); [exact Hm1|].
    reflexivity. }
  eexists. split; [exact Hm2|]. split; [reflexivity|].
  exact (reachable_rules_one_path _
           {| rulePath := PathString "/data/notes"; rule := allowAll |}
           {| rulePath := PathString "/data/notes"; rule := denyAll |}
           Hm2 (or_introl eq_refl) (or_intror (or_introl eq_refl))).
Defined.

Lemma registrations_independent_witness :
  registerSchema (task 2) (registry [task 1])
  = Return (registry [task 1; task 2]) /\
  authRuleForRepo (registry [task 1; task 2]) "/data/notes/n1"
  = authRuleForRepo (registry [task 1]) "/data/notes/n1".
Proof.
  assert (Hreg : registerSchema (task 2) (registry [task 1])
                 = Return (registry [task 1; task 2])) by reflexivity.
  split; [exact Hreg|].
  exact (proj1 (registrations_independent (registry [task 1])
                  (registry [task 1; task 2]))
           (task 2) "/data/notes/n1"%string Hreg).
Defined.

End Runs.
End AuthProps.

(** ** Further properties of the sync message *)

Module SyncProps.
Import JS JSFacts Sync SyncFacts SyncWire.

Section Props.
Context `{SyncEnv}.

(** *** What a built message carries *)

(** X18: [build] only ever sends a value that the iterator yielded under
    an id that the peer filter does not have; without a peer filter, or
    with [includeMissing] false, it sends no value at all. *)
Theorem build_sends_missing_only pf vals L P C org reg inc low v :
  In v (values (build pf vals L P C org reg inc low)) ->
  exists peer id,
    pf = Some peer /\ inc = true /\ In (id, v) vals /\
    bf_has peer id = false.
Proof.
  unfold build, emit, newSyncMessage, values. cbn.
  destruct pf as [peer|]; [|intros []].
  destruct inc; [|intros []].
  rewrite scan_fold. cbn. intros Hin.
  apply List.in_map_iff in Hin as ([id v'] & Hv & Hin). simpl in Hv. subst v'.
  apply List.filter_In in Hin as [Hin Hhas]. simpl in Hhas.
  exists peer, id. repeat split; try assumption.
  destruct (bf_has peer id); [discriminate | reflexivity].
Qed.

Lemma fold_add_has ids f id :
  (forall g x, bf_has (bf_add g x) x = true) ->
  (forall g x y, bf_has g y = true -> bf_has (bf_add g x) y = true) ->
  In id ids -> bf_has (fold_left bf_add ids f) id = true.
Proof.
  intros Hadd Hkeep. revert f.
  assert (Hstay : forall l g, bf_has g id = true ->
                              bf_has (fold_left bf_add l g) id = true).
  { induction l as [|x l IH]; intros g Hg; simpl; auto. }
  induction ids as [|x ids IH]; intros f Hin; [destruct Hin|].
  simpl. destruct Hin as [->|Hin]; auto.
Qed.

(** X19: when the bloom filter has no false negative ([has] answers true
    for an id once it was added, and stays true when further ids are
    added), the filter of a message built with a peer filter and
    [includeMissing] true answers true for the id of every pair of the
    iterator. *)
Theorem build_filter_has_ids peer vals L P C org reg low id v :
  (forall g x, bf_has (bf_add g x) x = true) ->
  (forall g x y, bf_has g y = true -> bf_has (bf_add g x) y = true) ->
  In (id, v) vals ->
  bf_has (filter (build (Some peer) vals L P C org reg true low)) id = true.
Proof.
  intros Hadd Hkeep Hin. rewrite build_filter. cbn [scanned].
  apply fold_add_has; [assumption | assumption|].
  apply List.in_map_iff. exists (id, v). auto.
Qed.

(** X30: with [lowAccuracy] set, [build] and [buildAsync] construct the
    filter with [max(1, localSize, peerSize)] as its size and the rate 0.5
    as it is written in the code: no arithmetic is done on the rate, and
    the number of expected sync cycles has no part in the message. *)
Theorem build_low_accuracy pf vals L P C org reg inc :
  filter (build pf vals L P C org reg inc true)
  = fold_left bf_add (List.map fst (scanned pf inc vals))
      (bf_new (Z.max 1 (Z.max L P)) num_half) /\
  filter (buildAsync pf vals L P C org reg inc true)
  = fold_left bf_add (List.map fst (scanned pf inc vals))
      (bf_new (Z.max 1 (Z.max L P)) num_half) /\
  forall C',
    build pf vals L P C' org reg inc true
    = build pf vals L P C org reg inc true /\
    buildAsync pf vals L P C' org reg inc true
    = buildAsync pf vals L P C org reg inc true.
Proof.
  change (buildAsync pf vals L P C org reg inc true)
    with (build pf vals L P C org reg inc true).
  assert (Hn : numberOfEntries L P = Z.max 1 (Z.max L P))
    by (unfold numberOfEntries; lia).
  rewrite build_filter, Hn. cbn [computeFpr].
  repeat split.
Qed.

(** *** Decoding *)

Lemma decodedCommits_length org reg commits :
  (length (decodedCommits org reg commits)
   + length (List.filter (failsToDecode org reg) commits))%nat
  = length commits.
Proof.
  unfold decodedCommits, failsToDecode.
  induction commits as [|d commits IH]; [reflexivity|].
  cbn [flat_map List.filter]. rewrite List.length_app.
  destruct (Commit_fromJS org d reg); cbn [length]; lia.
Qed.

Lemma decodedCommits_In org reg commits c :
  In c (decodedCommits org reg commits) <->
  exists d, In d commits /\ Commit_fromJS org d reg = Return c.
Proof.
  unfold decodedCommits. rewrite List.in_flat_map. split.
  - intros (d & Hd & Hc). exists d. split; [assumption|].
    destruct (Commit_fromJS org d reg); simpl in Hc;
      [destruct Hc as [->|[]]; reflexivity | destruct Hc].
  - intros (d & Hd & Hc). exists d. split; [assumption|].
    rewrite Hc. left. reflexivity.
Qed.

(** X23: the message that [deserialize] produces holds one value per
    encoded commit that decodes and none for the others: the number of
    its values plus the number of commits that fail to decode is the
    number of encoded commits, and a commit is among its values exactly
    when some encoded commit decodes to it. *)
Theorem deserialize_skips_failures org reg current e :
  (length (values (deserialize org reg current e))
   + length (List.filter (failsToDecode org reg) (default [] (enc_c e))))%nat
  = length (default [] (enc_c e)) /\
  forall c,
    In c (values (deserialize org reg current e)) <->
    exists d, In d (default [] (enc_c e)) /\
              Commit_fromJS org d reg = Return c.
Proof.
  destruct (deserialize_tolerant org reg current e) as (Hv & _).
  rewrite Hv. split.
  - apply decodedCommits_length.
  - intros c. apply decodedCommits_In.
Qed.

(** What the body of [decodeAsync] makes of the encoded commits. *)
Lemma decode_fold org reg commits :
  (List.Forall (fun d => failsToDecode org reg d = false) commits ->
   fold_right
     (fun d acc =>
        bind (Commit_fromJS org d reg) (fun c =>
        bind acc (fun cs => Return (c :: cs))))
     (Return []) commits
   = Return (decodedCommits org reg commits)) /\
  (List.Exists (fun d => failsToDecode org reg d = true) commits ->
   exists msg,
     fold_right
       (fun d acc =>
          bind (Commit_fromJS org d reg) (fun c =>
          bind acc (fun cs => Return (c :: cs))))
       (Return []) commits
     = Throw msg).
Proof.
  unfold failsToDecode, decodedCommits. split.
  - induction 1 as [|d commits Hd _ IH]; [reflexivity|].
    cbn [fold_right flat_map]. rewrite IH.
    destruct (Commit_fromJS org d reg); [reflexivity | discriminate].
  - induction 1 as [d commits Hd | d commits _ [msg IH]]; cbn [fold_right].
    + destruct (Commit_fromJS org d reg); [discriminate|].
      eexists. reflexivity.
    + rewrite IH. destruct (Commit_fromJS org d reg); eexists; reflexivity.
Qed.

Lemma failsToDecode_cases org reg commits :
  List.Forall (fun d => failsToDecode org reg d = false) commits \/
  List.Exists (fun d => failsToDecode org reg d = true) commits.
Proof.
  induction commits as [|d commits [IH|IH]]; auto.
  destruct (failsToDecode org reg d) eqn:Hd; auto.
Qed.

Lemma decodeAsync_values cfg reg commits :
  enc_c (decoder cfg) = Some commits ->
  decodeAsync cfg reg
  = bind
      (fold_right
         (fun d acc =>
            bind (Commit_fromJS (dec_orgId cfg) d reg) (fun c =>
            bind acc (fun cs => Return (c :: cs))))
         (Return []) commits)
      (fun vs =>
         Return (newSyncMessage
                   (inr {| cfg_filter :=
                             bf_deserialize (bf_new 1 num_half)
                               (enc_f (decoder cfg));
                           cfg_size := enc_s (decoder cfg);
                           cfg_orgId := dec_orgId cfg;
                           cfg_values := Some vs;
                           cfg_accessDenied :=
                             Some (default [] (enc_ad (decoder cfg)));
                           cfg_buildVersion := enc_ver (decoder cfg) |})
                   reg)).
Proof.
  intros Hc. unfold decodeAsync. rewrite Hc.
  pose proof (scheduler_map_spec (dec_orgId cfg) reg [] commits) as Hmap.
  cbn [List.app length] in Hmap. rewrite Hmap.
  destruct (fold_right _ _ commits); reflexivity.
Qed.

(** X24: on a message that carries a truthy build version and whose
    commits all decode, the streaming [decodeAsync] returns the very
    message that the constructor builds from the decoder. *)
Theorem decodeAsync_agrees cfg reg ver :
  enc_ver (decoder cfg) = Some ver ->
  version_truthy ver = true ->
  List.Forall (fun d => failsToDecode (dec_orgId cfg) reg d = false)
    (default [] (enc_c (decoder cfg))) ->
  decodeAsync cfg reg = Return (newSyncMessage (inl cfg) reg).
Proof.
  intros Hver Htrue Hall. cbn [newSyncMessage]. unfold deserialize.
  destruct (enc_c (decoder cfg)) as [commits|] eqn:Hc.
  - rewrite (decodeAsync_values cfg reg commits Hc).
    rewrite (proj1 (decode_fold (dec_orgId cfg) reg commits) Hall).
    cbn [bind newSyncMessage default cfg_orgId cfg_filter cfg_size
         cfg_values cfg_accessDenied cfg_buildVersion].
    pose proof (deserializeCommits_spec (dec_orgId cfg) reg [] commits [])
      as Hloop.
    cbn [List.app length] in Hloop. unfold Datatypes.id.
    rewrite Hloop, Hver. unfold or_currentVersion. rewrite Htrue.
    reflexivity.
  - unfold decodeAsync. rewrite Hc, Hver. cbn.
    unfold or_currentVersion. rewrite Htrue. reflexivity.
Qed.

(** X25: when the key ["c"] is present, [decodeAsync] returns a message
    exactly when every encoded commit decodes; a single commit that fails
    makes the whole call throw. *)
Theorem decodeAsync_returns_iff cfg reg commits :
  enc_c (decoder cfg) = Some commits ->
  (exists msg, decodeAsync cfg reg = Return msg) <->
  List.Forall (fun d => failsToDecode (dec_orgId cfg) reg d = false) commits.
Proof.
  intros Hc. rewrite (decodeAsync_values cfg reg commits Hc).
  destruct (decode_fold (dec_orgId cfg) reg commits) as [Hok Hfail].
  split.
  - intros [msg Hmsg].
    destruct (failsToDecode_cases (dec_orgId cfg) reg commits) as [|Hex];
      [assumption|].
    destruct (Hfail Hex) as [err Herr]. rewrite Herr in Hmsg. discriminate.
  - intros Hall. rewrite (Hok Hall). eexists. reflexivity.
Qed.


End Props.

(** *** The false-positive rate

    The numbers of [computeFpr] are taken as real numbers in this
    section: [Math.pow] as the real power, [Math.min] as the minimum. *)

Section Rate.
Import Samples.
#[local] Existing Instance realNumbers.

Lemma exponent_le (C1 C2 : R) :
  (0 < C1 <= C2 -> 1 / (0.5 * C2) <= 1 / (0.5 * C1))%R.
Proof.
  intros [H1 H2]. unfold Rdiv. rewrite !Rmult_1_l.
  apply Rinv_le_contravar; lra.
Qed.

Lemma exponent_le_2 (C : R) : (1 <= C -> 1 / (0.5 * C) <= 2)%R.
Proof.
  intros HC. unfold Rdiv. rewrite Rmult_1_l.
  replace 2%R with (/ (0.5 * 1))%R by (rewrite Rmult_1_r; lra).
  apply Rinv_le_contravar; lra.
Qed.

Lemma inv_power_le (n x y : R) :
  (1 <= n -> x <= y -> 1 / Rpower n y <= 1 / Rpower n x)%R.
Proof.
  intros Hn Hxy. unfold Rdiv. rewrite !Rmult_1_l.
  apply Rinv_le_contravar; [apply exp_pos|].
  apply Rle_Rpower; assumption.
Qed.

Lemma inv_power_pos (n x : R) : (0 < 1 / Rpower n x)%R.
Proof. unfold Rdiv. rewrite Rmult_1_l. apply Rinv_0_lt_compat, exp_pos. Qed.

Lemma numberOfEntries_ge_1 L P : (1 <= IZR (numberOfEntries L P))%R.
Proof. apply IZR_le. unfold numberOfEntries. lia. Qed.

(** X20: with at least one expected sync cycle, the false-positive rate
    that [build] computes is positive, at most 0.5, and not below
    [min(0.5, 1 / n^2)] for [n = max(1, localSize, peerSize)]; numbers
    are real numbers here. *)
Theorem computeFpr_bounds L P (C : R) low :
  (1 <= C)%R ->
  (0 < computeFpr (numberOfEntries L P) C low <= 0.5)%R /\
  (Rmin 0.5 (1 / Rpower (IZR (numberOfEntries L P)) 2)
   <= computeFpr (numberOfEntries L P) C low)%R.
Proof.
  intros HC. unfold computeFpr. cbn.
  pose proof (numberOfEntries_ge_1 L P) as Hn.
  destruct low.
  - split; [lra|]. apply Rmin_l.
  - split; [split|].
    + apply Rmin_glb_lt; [lra | apply inv_power_pos].
    + apply Rmin_l.
    + apply Rle_min_compat_l, inv_power_le; [assumption|].
      apply exponent_le_2, HC.
Qed.

(** X21: a larger budget of sync cycles never asks for a more accurate
    filter: for positive budgets the false-positive rate is monotone in
    the expected number of cycles; numbers are real numbers here. *)
Theorem computeFpr_monotone L P (C1 C2 : R) low :
  (0 < C1 <= C2)%R ->
  (computeFpr (numberOfEntries L P) C1 low
   <= computeFpr (numberOfEntries L P) C2 low)%R.
Proof.
  intros HC. unfold computeFpr. cbn. destruct low; [lra|].
  apply Rle_min_compat_l, inv_power_le;
    [apply numberOfEntries_ge_1 | apply exponent_le, HC].
Qed.

(** X22: when neither side holds more than one entry, the rate is 0.5
    whatever the number of expected cycles: [1 ^ x] is 1. Numbers are
    real numbers here, and the cycles are taken at least 1: on doubles
    [1 ^ x] is 1 for a finite [x] only, and [x] is infinite when the
    number of cycles is 0 or close to it. *)
Theorem computeFpr_small_collections L P (C : R) low :
  L <= 1 -> P <= 1 -> (1 <= C)%R ->
  computeFpr (numberOfEntries L P) C low = 0.5%R.
Proof.
  intros HL HP _. unfold computeFpr. cbn. destruct low; [reflexivity|].
  replace (numberOfEntries L P) with 1 by (unfold numberOfEntries; lia).
  unfold Rpower. rewrite ln_1, Rmult_0_r, exp_0.
  apply Rmin_left. lra.
Qed.

End Rate.

(** *** Writing and reading back *)

Section Wire.
Context `{SyncCodec}.

Lemma decodedCommits_toJS org reg cs :
  (forall c, In c cs -> Commit_fromJS org (Commit_toJS c) reg = Return c) ->
  decodedCommits org reg (List.map Commit_toJS cs) = cs.
Proof.
  unfold decodedCommits. induction cs as [|c cs IH]; intros Hall;
    [reflexivity|].
  cbn [List.map flat_map]. rewrite (Hall c) by (left; reflexivity).
  cbn [List.app]. f_equal. apply IH. intros c' Hc'. apply Hall. right.
  exact Hc'.
Qed.

(** X26: reading back what [serialize] wrote gives a message with the
    same values, size, denial list, build version and [orgId], whose
    filter is the serialized filter read into a fresh one, provided each
    of the commits decodes from its own [toJS] form. *)
Theorem deserialize_serialize msg :
  (forall c, In c (values msg) ->
     Commit_fromJS (orgId msg) (Commit_toJS c) (registry msg) = Return c) ->
  values (deserialize (orgId msg) (registry msg) None (serialize msg))
  = values msg /\
  size (deserialize (orgId msg) (registry msg) None (serialize msg))
  = size msg /\
  accessDenied (deserialize (orgId msg) (registry msg) None (serialize msg))
  = accessDenied msg /\
  buildVersion (deserialize (orgId msg) (registry msg) None (serialize msg))
  = buildVersion msg /\
  orgId (deserialize (orgId msg) (registry msg) None (serialize msg))
  = orgId msg /\
  filter (deserialize (orgId msg) (registry msg) None (serialize msg))
  = bf_deserialize (bf_new 1 num_half) (bf_serialize (filter msg)).
Proof.
  intros Hall.
  destruct (deserialize_tolerant (orgId msg) (registry msg) None
              (serialize msg)) as (Hv & Hf & _).
  rewrite Hv, Hf. cbn [serialize enc_c enc_f default]. unfold Datatypes.id.
  rewrite (decodedCommits_toJS _ _ _ Hall).
  repeat split.
Qed.

(** X27: the session id that [generateSessionId] makes for a user id
    without ["/"] starts with that user id as its first ["/"]-separated
    piece, and two session ids of one user are equal only when the unique
    ids are. *)
Theorem generateSessionId_owner unique userId :
  has_char "/" userId = false ->
  List.hd EmptyString (split "/" (generateSessionId unique userId))
  = userId /\
  forall unique',
    generateSessionId unique' userId = generateSessionId unique userId ->
    unique' = unique.
Proof.
  intros Hu. unfold generateSessionId.
  change ("/" ++ unique)%string with (String "/" unique).
  rewrite (split_app _ _ _ Hu). split; [reflexivity|].
  intros unique'. change ("/" ++ unique')%string with (String "/" unique').
  clear Hu. induction userId as [|c userId IH]; simpl.
  - intros [= ->]. reflexivity.
  - intros [= Heq]. auto.
Qed.

End Wire.

(** *** Runs on explicit inputs *)

Section Runs.
Import Samples.
#[local] Existing Instance realNumbers.
#[local] Existing Instance sampleSyncEnv.
#[local] Existing Instance sampleCodec.

Lemma build_sends_missing_only_witness :
  In "commit-b"%string
    (values (build (Some (bf_add (bf_new 2 0.5%R) "a"))
               [("a", "commit-a"); ("b", "commit-b")]%string
               2 2 3%R "org" tt true false)) /\
  exists peer id,
    Some (bf_add (bf_new 2 0.5%R) "a") = Some peer /\ true = true /\
    In (id, "commit-b"%string)
      [("a", "commit-a"); ("b", "commit-b")]%string /\
    bf_has peer id = false.
Proof.
  assert (Hin : In "commit-b"%string
            (values (build (Some (bf_add (bf_new 2 0.5%R) "a"))
                       [("a", "commit-a"); ("b", "commit-b")]%string
                       2 2 3%R "org" tt true false))).
  { left. reflexivity. }
  split; [exact Hin|].
  exact (build_sends_missing_only _ _ _ _ _ _ _ _ _ _ Hin).
Defined.

Lemma build_filter_has_ids_witness :
  (forall (g : BloomFilter) x, bf_has (bf_add g x) x = true) /\
  (forall (g : BloomFilter) x y,
     bf_has g y = true -> bf_has (bf_add g x) y = true) /\
  bf_has
    (filter (build (Some (bf_new 2 0.5%R))
               [("a", "commit-a"); ("b", "commit-b")]%string
               2 2 3%R "org" tt true false)) "a" = true.
Proof.
  assert (Hadd : forall (g : BloomFilter) x, bf_has (bf_add g x) x = true).
  { intros g x. simpl. rewrite String.eqb_refl. reflexivity. }
  assert (Hkeep : forall (g : BloomFilter) x y,
            bf_has g y = true -> bf_has (bf_add g x) y = true).
  { intros g x y Hy. simpl in *. rewrite Hy. apply orb_true_r. }
  split; [exact Hadd|]. split; [exact Hkeep|].
  apply (@build_filter_has_ids realNumbers sampleSyncEnv
           (@bf_new realNumbers sampleSyncEnv 2 0.5%R)
           [("a", "commit-a"); ("b", "commit-b")]%string 2 2 3%R
           "org"%string tt false "a"%string "commit-a"%string Hadd Hkeep).
  left. reflexivity.
Defined.

Lemma computeFpr_bounds_witness :
  (1 <= 3)%R /\
  (0 < computeFpr (numberOfEntries 1000 999) 3 false <= 0.5)%R.
Proof.
  assert (HC : (1 <= 3)%R) by lra.
  split; [exact HC|].
  exact (proj1 (computeFpr_bounds 1000 999 3%R false HC)).
Defined.

Lemma computeFpr_monotone_witness :
  (0 < 3 <= 5)%R /\
  (computeFpr (numberOfEntries 1000 999) 3 false
   <= computeFpr (numberOfEntries 1000 999) 5 false)%R.
Proof.
  assert (HC : (0 < 3 <= 5)%R) by lra.
  split; [exact HC|].
  exact (computeFpr_monotone 1000 999 3%R 5%R false HC).
Defined.

Lemma computeFpr_small_collections_witness :
  0 <= 1 /\ 1 <= 1 /\ (1 <= 3)%R /\
  computeFpr (numberOfEntries 0 1) 3%R false = 0.5%R.
Proof.
  assert (HC : (1 <= 3)%R) by lra.
  split; [lia|]. split; [lia|]. split; [exact HC|].
  exact (computeFpr_small_collections 0 1 3%R false ltac:(lia) ltac:(lia) HC).
Defined.

Lemma decodeAsync_agrees_witness :
  let cfg :=
    {| dec_orgId := "org";
       decoder := {| enc_ver := Some 1;
                     enc_f := ["a"; "b"]%string;
                     enc_s := 2;
                     enc_c := Some [Some "commit-a"; Some "commit-b"]%string;
                     enc_ad := None |} |} in
  version_truthy 1 = true /\
  List.Forall (fun d => failsToDecode (dec_orgId cfg) tt d = false)
    (default [] (enc_c (decoder cfg))) /\
  decodeAsync cfg tt = Return (newSyncMessage (inl cfg) tt).
Proof.
  intros cfg.
  assert (Htrue : version_truthy 1 = true) by reflexivity.
  assert (Hall : List.Forall
            (fun d => failsToDecode (dec_orgId cfg) tt d = false)
            (default [] (enc_c (decoder cfg)))).
  { repeat constructor. }
  split; [exact Htrue|]. split; [exact Hall|].
  exact (decodeAsync_agrees cfg tt 1 eq_refl Htrue Hall).
Defined.


Lemma decodeAsync_returns_iff_witness :
  enc_c (decoder corrupted)
  = Some [Some "commit-a"; None; Some "commit-c"]%string /\
  ~ exists msg, decodeAsync corrupted tt = Return msg.
Proof.
  split; [reflexivity|].
  intros Hmsg.
  apply (proj1 (decodeAsync_returns_iff corrupted tt _ eq_refl)) in Hmsg.
  inversion Hmsg as [|? ? _ Hrest]; subst.
  inversion Hrest as [|? ? Hbad _]; subst.
  discriminate Hbad.
Defined.

Lemma deserialize_serialize_witness :
  (forall c, In c (values sampleMessage) ->
     Commit_fromJS (orgId sampleMessage) (Commit_toJS c)
       (Sync.registry sampleMessage) = Return c) /\
  values (deserialize (orgId sampleMessage) (Sync.registry sampleMessage) None
            (serialize sampleMessage))
  = ["commit-a"; "commit-b"]%string.
Proof.
  assert (Hall : forall c, In c (values sampleMessage) ->
            Commit_fromJS (orgId sampleMessage) (Commit_toJS c)
              (Sync.registry sampleMessage) = Return c)
    by (intros c _; reflexivity).
  split; [exact Hall|].
  exact (proj1 (deserialize_serialize sampleMessage Hall)).
Defined.

Lemma generateSessionId_owner_witness :
  has_char "/" "alice" = false /\
  List.hd EmptyString (split "/" (generateSessionId "k3x9" "alice"))
  = "alice"%string.
Proof.
  split; [reflexivity|].
  exact (proj1 (generateSessionId_owner "k3x9" "alice" eq_refl)).
Defined.

Example serialize_always_writes_ad :
  enc_ad (serialize (build None [] 0 0 3%R "org" tt true false)) = Some [] /\
  enc_c (serialize (build None [] 0 0 3%R "org" tt true false)) = Some [].
Proof. split; reflexivity. Qed.

End Runs.
End SyncProps.
